(** * The pipeline endpoint and the brief form of the agentic-video app

    The development embeds two source files:

    - the route handler of [/api/pipeline] (the [payloadSchema] built with zod
      and the [POST] function), and
    - the [Home] page component ([FormState], the constraint attributes of
      the brief form and the request body that [handleSubmit] sends).

    The body of a request is the value that [request.json()] yields: a JSON
    value.  Objects are finite maps from property names to values; numbers
    are rationals (every finite double is one); a character of a string
    stands for one UTF-16 code unit, so [String.length] is the [length]
    property that zod's [min] inspects. *)

From Stdlib Require Import QArith Ascii String DecimalString DecimalNat.
From stdpp Require Import gmap strings list fin_maps.

Local Open Scope string_scope.
Local Open Scope list_scope.
Local Open Scope nat_scope.
Set Warnings "-register-all".

(** ** JSON values *)

Inductive json : Type :=
  | JNull
  | JBool (b : bool)
  | JNumber (q : Q)
  | JString (s : string)
  | JArray (l : list json)
  | JObject (m : gmap string json).

(** ** The fragment of zod that the route uses *)

Module Zod.

(** [Number.isInteger] on a rational. *)
Definition isInteger (q : Q) : bool :=
  (Qnum q mod Zpos (Qden q) =? 0)%Z.

Inductive PathSeg : Type :=
  | Key (k : string)
  | Index (i : nat).

Inductive IssueCode : Type :=
  | invalid_type
  | too_small
  | too_big.

Record ZodIssue : Type := mkIssue { code : IssueCode; path : list PathSeg }.

(** A [ZodError] carries the issues found, in the order zod found them. *)
Definition ZodError : Type := list ZodIssue.

(** Refinements chained on [z.number()]. *)
Inductive NumberCheck : Type :=
  | int
  | min (bound : Q)
  | max (bound : Q).

Inductive ZodType : Type :=
  | string_ (minLength : option nat)
  | number (checks : list NumberCheck)
  | array (element : ZodType)
  | optional (inner : ZodType)
  | object (shape : list (string * ZodType)).

Definition check_number (p : list PathSeg) (q : Q) (c : NumberCheck) : ZodError :=
  match c with
  | int => if isInteger q then [] else [mkIssue invalid_type p]
  | min b => if Qle_bool b q then [] else [mkIssue too_small p]
  | max b => if Qle_bool q b then [] else [mkIssue too_big p]
  end.

(** The outcome of parsing one value: the issues, or the parsed output
    ([None] is JavaScript's [undefined]). *)
Definition ParseReturn : Type := (ZodError + option json)%type.

(** Elements of an array are parsed in order; issues accumulate.  (An
    element is a value that is present, and such a value never parses to
    [undefined]: the second case below is never taken.) *)
Fixpoint parse_elements (parse_element : list PathSeg -> option json -> ParseReturn)
    (p : list PathSeg) (i : nat) (l : list json) : ZodError + list json :=
  match l with
  | [] => inr []
  | v :: l' =>
      match parse_element (p ++ [Index i]) (Some v), parse_elements parse_element p (S i) l' with
      | inr (Some w), inr ws => inr (w :: ws)
      | inr None, inr ws => inr ws
      | inr _, inl es => inl es
      | inl e, inr _ => inl e
      | inl e, inl es => inl (e ++ es)
      end
  end.

(** The keys of an object schema's shape are parsed in order, each
    against the input's property of that name; a key whose parsed value
    is [undefined] is left out of the output. *)
Fixpoint parse_fields (parse_field : ZodType -> list PathSeg -> option json -> ParseReturn)
    (p : list PathSeg) (m : gmap string json) (shape : list (string * ZodType))
    : ZodError + gmap string json :=
  match shape with
  | [] => inr ∅
  | (k, t) :: rest =>
      match parse_field t (p ++ [Key k]) (m !! k), parse_fields parse_field p m rest with
      | inr (Some w), inr out => inr (<[k := w]> out)
      | inr None, inr out => inr out
      | inr _, inl es => inl es
      | inl e, inr _ => inl e
      | inl e, inl es => inl (e ++ es)
      end
  end.

(** [schema.parse(data)] with [data] the optional input ([None] for a
    property that the enclosing object lacks).  An object schema keeps
    the keys of its shape and strips every other key of the input. *)
Fixpoint parse (t : ZodType) (p : list PathSeg) (data : option json) : ParseReturn :=
  match t with
  | string_ minLength =>
      match data with
      | Some (JString s) =>
          match minLength with
          | Some n => if (n <=? String.length s)%nat then inr data else inl [mkIssue too_small p]
          | None => inr data
          end
      | _ => inl [mkIssue invalid_type p]
      end
  | number checks =>
      match data with
      | Some (JNumber q) =>
          match concat (List.map (check_number p q) checks) with
          | [] => inr data
          | issues => inl issues
          end
      | _ => inl [mkIssue invalid_type p]
      end
  | array element =>
      match data with
      | Some (JArray l) =>
          match parse_elements (parse element) p 0 l with
          | inr ws => inr (Some (JArray ws))
          | inl es => inl es
          end
      | _ => inl [mkIssue invalid_type p]
      end
  | optional inner =>
      match data with
      | None => inr None
      | Some _ => parse inner p data
      end
  | object shape =>
      match data with
      | Some (JObject m) =>
          match parse_fields parse p m shape with
          | inr out => inr (Some (JObject out))
          | inl es => inl es
          end
      | _ => inl [mkIssue invalid_type p]
      end
  end.

(** [schema.shape] of an object schema. *)
Definition shape (t : ZodType) : list (string * ZodType) :=
  match t with object shape => shape | _ => [] end.

End Zod.

(** ** The route's schema *)

Definition payloadSchema : Zod.ZodType :=
  Zod.object
    [ ("topic", Zod.string_ (Some 3));
      ("targetAudience", Zod.string_ (Some 3));
      ("contentGoals", Zod.string_ (Some 3));
      ("tone", Zod.optional (Zod.string_ None));
      ("keywords", Zod.optional (Zod.array (Zod.string_ (Some 1))));
      ("callToAction", Zod.optional (Zod.string_ None));
      ("durationSeconds",
        Zod.optional (Zod.number [Zod.int; Zod.min (30 # 1); Zod.max (300 # 1)])) ].

(** [payloadSchema.parse(body)]: the parsed brief, or the thrown
    [ZodError].  (The body is present, so the third case is never taken.) *)
Definition payloadSchema_parse (body : json) : Zod.ZodError + json :=
  match Zod.parse payloadSchema [] (Some body) with
  | inl e => inl e
  | inr (Some v) => inr v
  | inr None => inl [Zod.mkIssue Zod.invalid_type []]
  end.

(** ** The route handler *)

(** What a rejected promise can carry: an instance of [Error] (its
    [message], and whatever own properties the instance has besides), or
    any other value. *)
Inductive thrown : Type :=
  | ErrorInstance (message : string) (props : gmap string json)
  | NonError (v : json).

(** One call of [runAutomationPipeline(parsed, { onStatus })], as the route
    sees it: the pipeline calls the handler it was given some number of
    times, then its promise settles. *)
Inductive pipeline_run : Type :=
  | onStatus (status : json) (k : pipeline_run)
  | resolve (result : json)
  | reject (error : thrown).

Record Response : Type := mkResponse { status : Z; payload : json }.

(** [NextResponse.json(payload, init)]; the status defaults to 200. *)
Definition NextResponse_json (payload : json) (init : option Z) : Response :=
  mkResponse (default 200%Z init) payload.

(** How a call of [POST] ends: the exception that [payloadSchema.parse]
    raised leaves the function, or the function returns a response. *)
Inductive outcome : Type :=
  | Threw (e : Zod.ZodError)
  | Returned (r : Response).

(** The memory of the server process: the arrays allocated so far, by
    address, and the log of the arguments [runAutomationPipeline] was
    called with. *)
Record memory : Type := mkMemory {
  arrays : list (list json);
  pipelineCalls : list json
}.

Definition boot : memory := mkMemory [] [].

(** [const statusUpdates = []]: a new array, at an address not in use. *)
Definition new_array (μ : memory) : nat * memory :=
  (length (arrays μ), mkMemory (arrays μ ++ [[]]) (pipelineCalls μ)).

(** [statusUpdates.push(status)] *)
Definition push (a : nat) (v : json) (μ : memory) : memory :=
  mkMemory (alter (λ l, l ++ [v]) a (arrays μ)) (pipelineCalls μ).

Definition read (a : nat) (μ : memory) : list json :=
  default [] (arrays μ !! a).

Definition call_logged (arg : json) (μ : memory) : memory :=
  mkMemory (arrays μ) (pipelineCalls μ ++ [arg]).

Definition success_body (result : json) (statusUpdates : list json) : json :=
  JObject (<["ok" := JBool true]> (<["result" := result]>
            (<["statusUpdates" := JArray statusUpdates]> ∅))).

Definition failure_body (message : string) (statusUpdates : list json) : json :=
  JObject (<["ok" := JBool false]> (<["error" := JString message]>
            (<["statusUpdates" := JArray statusUpdates]> ∅))).

(** [error instanceof Error ? error.message : "Unknown pipeline failure"] *)
Definition message_of (error : thrown) : string :=
  match error with
  | ErrorInstance message _ => message
  | NonError _ => "Unknown pipeline failure"
  end.

(** The [try]/[catch] around the awaited pipeline call; [statusUpdates] is
    the address of the array that the [onStatus] closure pushes to. *)
Fixpoint await_pipeline (μ : memory) (statusUpdates : nat) (run : pipeline_run)
    : memory * outcome :=
  match run with
  | onStatus status k => await_pipeline (push statusUpdates status μ) statusUpdates k
  | resolve result =>
      (μ, Returned (NextResponse_json (success_body result (read statusUpdates μ)) None))
  | reject error =>
      (μ, Returned (NextResponse_json
                      (failure_body (message_of error) (read statusUpdates μ))
                      (Some 500%Z)))
  end.

Section Route.

Variable runAutomationPipeline : json → pipeline_run.

(** [POST(request)] with [body] what [request.json()] gave, run to its
    end without another request in between. *)
Definition POST (μ : memory) (body : json) : memory * outcome :=
  match payloadSchema_parse body with
  | inl e => (μ, Threw e)
  | inr parsed =>
      let '(statusUpdates, μ1) := new_array μ in
      await_pipeline (call_logged parsed μ1) statusUpdates
        (runAutomationPipeline parsed)
  end.

(** The same function one step at a time: it suspends where the
    pipeline does, so that calls of several requests interleave. *)
Inductive handler : Type :=
  | Entered (body : json)
  | Awaiting (statusUpdates : nat) (run : pipeline_run)
  | Settled (o : outcome).

Definition step (μ : memory) (h : handler) : memory * handler :=
  match h with
  | Entered body =>
      match payloadSchema_parse body with
      | inl e => (μ, Settled (Threw e))
      | inr parsed =>
          let '(statusUpdates, μ1) := new_array μ in
          (call_logged parsed μ1,
           Awaiting statusUpdates (runAutomationPipeline parsed))
      end
  | Awaiting statusUpdates (onStatus status k) =>
      (push statusUpdates status μ, Awaiting statusUpdates k)
  | Awaiting statusUpdates run =>
      let '(μ1, o) := await_pipeline μ statusUpdates run in (μ1, Settled o)
  | Settled o => (μ, h)
  end.

(** The requests in flight and the memory they share; a schedule names
    the request that moves next. *)
Definition schedule_step (σ : memory * list handler) (i : nat)
    : memory * list handler :=
  match σ.2 !! i with
  | Some h => let '(μ1, h1) := step σ.1 h in (μ1, <[i := h1]> σ.2)
  | None => σ
  end.

Definition run_schedule (schedule : list nat) (σ : memory * list handler)
    : memory * list handler :=
  foldl schedule_step σ schedule.

End Route.

(** The status messages a run hands to [onStatus], in order. *)
Fixpoint emitted (run : pipeline_run) : list json :=
  match run with
  | onStatus status k => status :: emitted k
  | resolve _ | reject _ => []
  end.

(** How the run's promise settles. *)
Fixpoint settlement (run : pipeline_run) : json + thrown :=
  match run with
  | onStatus _ k => settlement k
  | resolve result => inl result
  | reject error => inr error
  end.

(** The response to a settled run, given the content of the array. *)
Definition response_to (s : json + thrown) (statusUpdates : list json) : Response :=
  match s with
  | inl result => NextResponse_json (success_body result statusUpdates) None
  | inr error =>
      NextResponse_json (failure_body (message_of error) statusUpdates) (Some 500%Z)
  end.

(** ** The brief form of the page *)

Module Page.

Record FormState : Type := mkFormState {
  topic : string;
  targetAudience : string;
  contentGoals : string;
  tone : string;
  keywords : string;
  callToAction : string;
  durationSeconds : Q
}.

Definition initialForm : FormState :=
  {| topic := "AI automation for video creators";
     targetAudience := "Busy YouTubers and content marketers";
     contentGoals := "Educate viewers on automating their video workflow";
     tone := "Energetic and insightful";
     keywords := "automation, AI tools, YouTube growth";
     callToAction := "Subscribe for weekly automation playbooks";
     durationSeconds := 120 # 1 |}.

(** The constraint attributes that the JSX gives a form control.  No
    control of the form has a [minLength], [pattern] or [step]. *)
Inductive ControlType : Type := text | textarea | number.

Record Control : Type := mkControl {
  type : ControlType;
  required : bool;
  min : option Q;
  max : option Q
}.

Definition topicControl : Control := mkControl text true None None.
Definition targetAudienceControl : Control := mkControl text true None None.
Definition contentGoalsControl : Control := mkControl textarea true None None.
Definition toneControl : Control := mkControl text false None None.
Definition keywordsControl : Control := mkControl text false None None.
Definition callToActionControl : Control := mkControl text false None None.
Definition durationSecondsControl : Control :=
  mkControl number false (Some (30 # 1)) (Some (300 # 1)).

(** HTML constraint validation.  Every control is a controlled one: its
    value is the form state's. *)
Definition valueMissing (c : Control) (value : string) : bool :=
  required c && (String.length value =? 0)%nat.

Definition rangeUnderflow (c : Control) (value : Q) : bool :=
  match min c with Some b => negb (Qle_bool b value) | None => false end.

Definition rangeOverflow (c : Control) (value : Q) : bool :=
  match max c with Some b => negb (Qle_bool value b) | None => false end.

(** A number control without [step] has step 1, counted from [min]. *)
Definition stepMismatch (c : Control) (value : Q) : bool :=
  negb (Zod.isInteger (value - default (0 # 1) (min c))).

Definition text_valid (c : Control) (value : string) : bool :=
  negb (valueMissing c value).

Definition number_valid (c : Control) (value : Q) : bool :=
  negb (rangeUnderflow c value) && negb (rangeOverflow c value)
  && negb (stepMismatch c value).

(** The browser submits the form (and [handleSubmit] runs) only if every
    control satisfies its constraints. *)
Definition checkValidity (form : FormState) : bool :=
  text_valid topicControl (topic form)
  && text_valid targetAudienceControl (targetAudience form)
  && text_valid contentGoalsControl (contentGoals form)
  && text_valid toneControl (tone form)
  && text_valid keywordsControl (keywords form)
  && text_valid callToActionControl (callToAction form)
  && number_valid durationSecondsControl (durationSeconds form).

(** [s.split(",")] *)
Fixpoint split (sep : ascii) (s : string) : list string :=
  match s with
  | EmptyString => [EmptyString]
  | String c s' =>
      if Ascii.eqb c sep then EmptyString :: split sep s'
      else match split sep s' with
           | piece :: pieces => String c piece :: pieces
           | [] => [String c EmptyString]
           end
  end.

(** White space and line terminators among the code units below 256. *)
Definition isWhiteSpace (c : ascii) : bool :=
  let n := nat_of_ascii c in
  ((9 <=? n) && (n <=? 13) || (n =? 32) || (n =? 160))%nat.

Fixpoint trimStart (s : string) : string :=
  match s with
  | String c s' => if isWhiteSpace c then trimStart s' else s
  | EmptyString => EmptyString
  end.

Fixpoint trimEnd (s : string) : string :=
  match s with
  | String c s' =>
      match trimEnd s' with
      | EmptyString => if isWhiteSpace c then EmptyString else String c EmptyString
      | rest => String c rest
      end
  | EmptyString => EmptyString
  end.

Definition trim (s : string) : string := trimEnd (trimStart s).

(** [Boolean(s)] for a string. *)
Definition truthy (s : string) : bool := negb (String.length s =? 0)%nat.

Definition keywordList (form : FormState) : list string :=
  List.filter truthy (List.map trim (split ","%char (keywords form))).

(** The body that [handleSubmit] posts, after [JSON.stringify] on the
    page and [request.json()] on the server. *)
Definition requestBody (form : FormState) : json :=
  JObject (<["topic" := JString (topic form)]>
          (<["targetAudience" := JString (targetAudience form)]>
          (<["contentGoals" := JString (contentGoals form)]>
          (<["tone" := JString (tone form)]>
          (<["callToAction" := JString (callToAction form)]>
          (<["durationSeconds" := JNumber (durationSeconds form)]>
          (<["keywords" := JArray (JString <$> keywordList form)]> ∅))))))).

End Page.

(** ** The orchestrator *)

Module Orchestrator.

(** Modelled from the spec: the four stages of [@/lib/pipeline], a module
    that the route imports; the names are those of the spec's
    glossary. *)
Inductive Stage : Type := Script | Prompt | Render | Publish.

(** Modelled from the spec: the [StatusEvent] of the data model (the
    [PipelineStatusMessage] of [@/lib/types]), a stage and a free text. *)
Record StatusEvent : Type := mkStatusEvent { stage : Stage; detail : string }.

(** Modelled from the spec: the stage outputs and the aggregate result of
    [@/lib/types], field by field as the data model lists them. *)
Record ScriptSection : Type := mkScriptSection {
  heading : string;
  narrative : string;
  durationSeconds : Z
}.

Record ScriptOutput : Type := mkScript {
  hook : string;
  sections : list ScriptSection;
  outro : string
}.

Record VisualPrompt : Type := mkVisualPrompt {
  scene : string;
  prompt : string;
  promptDurationSeconds : Z
}.

Record RenderOutput : Type := mkRenderOutput { renderedVideoDownloadUrl : string }.

Record Metadata : Type := mkMetadata { tags : list string }.

Record PublishOutput : Type := mkPublishOutput {
  publishedYoutubeVideoUrl : string;
  publishedMetadata : Metadata
}.

Record PipelineResult : Type := mkPipelineResult {
  script : ScriptOutput;
  visualPrompts : list VisualPrompt;
  videoDownloadUrl : string;
  youtubeVideoUrl : string;
  metadata : Metadata
}.

(** Modelled from the spec: the [StageFailure] of the orchestrator's
    contract, the failing stage and the cause the adapter gave. *)
Record StageFailure (Cause : Type) : Type := mkStageFailure {
  failedStage : Stage;
  cause : Cause
}.
Arguments mkStageFailure {Cause} _ _.
Arguments failedStage {Cause} _.
Arguments cause {Cause} _.

(** What an observer of a run sees, in order: a status event handed to
    the sink, or a stage adapter being called. *)
Inductive Action : Type :=
  | Emitted (e : StatusEvent)
  | Invoked (s : Stage).

(** The events among the actions: the content of the sink. *)
Definition sink (trace : list Action) : list StatusEvent :=
  omap (λ a, match a with Emitted e => Some e | Invoked _ => None end) trace.

(** A run threads the trace and stops at the first failure. *)
Definition M (Cause A : Type) : Type :=
  list Action → list Action * (StageFailure Cause + A).

Definition ret {Cause A} (a : A) : M Cause A := λ trace, (trace, inr a).

Definition bind {Cause A B} (m : M Cause A) (f : A → M Cause B) : M Cause B :=
  λ trace,
    match m trace with
    | (trace1, inr a) => f a trace1
    | (trace1, inl failure) => (trace1, inl failure)
    end.

Definition emit {Cause} (e : StatusEvent) : M Cause unit :=
  λ trace, (trace ++ [Emitted e], inr tt).

(** Calling the adapter of stage [s]; [answer] is what the adapter does
    with the input it is given. *)
Definition invoke {Cause A} (s : Stage) (answer : Cause + A) : M Cause A :=
  λ trace,
    match answer with
    | inr a => (trace ++ [Invoked s], inr a)
    | inl c => (trace ++ [Invoked s], inl (mkStageFailure s c))
    end.

Notation "'let!' x ':=' m 'in' f" := (bind m (λ x, f))
  (at level 10, x name, m at level 100, f at level 200).

Section Run.

Context {Brief Cause : Type}.

(** The stage adapters, external collaborators with the contracts of
    the spec's table. *)
Variable scriptwriter : Brief → Cause + ScriptOutput.
Variable promptDesigner : ScriptOutput → Cause + list VisualPrompt.
Variable renderer : list VisualPrompt → ScriptOutput → Cause + RenderOutput.
Variable publisher : RenderOutput → Brief → Cause + PublishOutput.

(** The free texts of the start and completion events. *)
Variable startDetail doneDetail : Stage → string.

Definition started (s : Stage) : StatusEvent := mkStatusEvent s (startDetail s).
Definition completed (s : Stage) : StatusEvent := mkStatusEvent s (doneDetail s).

(** Modelled from the spec: [runAutomationPipeline] of [@/lib/pipeline],
    the orchestrator; behaviour 1 to 4 of its component design. *)
Definition run (brief : Brief) : M Cause PipelineResult :=
  let! _ := emit (started Script) in
  let! s := invoke Script (scriptwriter brief) in
  let! _ := emit (completed Script) in
  let! _ := emit (started Prompt) in
  let! ps := invoke Prompt (promptDesigner s) in
  let! _ := emit (completed Prompt) in
  let! _ := emit (started Render) in
  let! r := invoke Render (renderer ps s) in
  let! _ := emit (completed Render) in
  let! _ := emit (started Publish) in
  let! p := invoke Publish (publisher r brief) in
  let! _ := emit (completed Publish) in
  ret (mkPipelineResult s ps (renderedVideoDownloadUrl r)
         (publishedYoutubeVideoUrl p) (publishedMetadata p)).

End Run.

End Orchestrator.

(** ** What the statements below speak of *)

(** The schema accepts a body, or rejects it with a [ZodError]. *)
Definition accepted (body : json) : Prop :=
  ∃ brief, payloadSchema_parse body = inr brief.

Definition rejected (body : json) : Prop :=
  ∃ e, payloadSchema_parse body = inl e.

(** The schema [t] accepts the property [v] ([None] when the property is
    missing). *)
Definition passes (t : Zod.ZodType) (p : list Zod.PathSeg) (v : option json) : Prop :=
  ∃ o, Zod.parse t p v = inr o.

(** The property is a string of [n] code units or more. *)
Definition text_at_least (n : nat) (v : option json) : Prop :=
  ∃ s, v = Some (JString s) ∧ n ≤ String.length s.

(** The property is an array of non-empty strings. *)
Definition keyword_array (v : option json) : Prop :=
  ∃ l, v = Some (JArray l) ∧ Forall (λ x, text_at_least 1 (Some x)) l.

(** The property is an integer from 30 to 300. *)
Definition duration_in_bounds (v : option json) : Prop :=
  ∃ q, v = Some (JNumber q) ∧ Zod.isInteger q = true
       ∧ (30 # 1 <= q)%Q ∧ (q <= 300 # 1)%Q.

Definition absent_or (P : option json → Prop) (v : option json) : Prop :=
  v = None ∨ P v.

(** The constraints on the six properties other than [durationSeconds],
    with [n] the least length of the three required texts. *)
Definition text_fields_valid (n : nat) (m : gmap string json) : Prop :=
  text_at_least n (m !! "topic")
  ∧ text_at_least n (m !! "targetAudience")
  ∧ text_at_least n (m !! "contentGoals")
  ∧ absent_or (text_at_least 0) (m !! "tone")
  ∧ absent_or keyword_array (m !! "keywords")
  ∧ absent_or (text_at_least 0) (m !! "callToAction").

Definition fields_valid (n : nat) (m : gmap string json) : Prop :=
  text_fields_valid n m ∧ absent_or duration_in_bounds (m !! "durationSeconds").

(** The seven properties of a brief. *)
Definition brief_fields : list string :=
  ["topic"; "targetAudience"; "contentGoals"; "tone"; "keywords";
   "callToAction"; "durationSeconds"].

(** ** Requests in flight together *)

Section Coherence.

Variable runAutomationPipeline : json → pipeline_run.
Variable bodies : list json.

(** What holds of request [i] in state [h] with the memory [μ]: what the
    array holds and what the run has yet to hand over make up the status
    messages of this request's own run. *)
Definition handler_ok (μ : memory) (i : nat) (h : handler) : Prop :=
  ∃ body, bodies !! i = Some body ∧
    match h with
    | Entered b => b = body
    | Awaiting a k =>
        a < length (arrays μ)
        ∧ ∃ parsed, payloadSchema_parse body = inr parsed
            ∧ read a μ ++ emitted k = emitted (runAutomationPipeline parsed)
            ∧ settlement k = settlement (runAutomationPipeline parsed)
    | Settled o => o = (POST runAutomationPipeline boot body).2
    end.

(** No two requests hold the same array. *)
Definition arrays_apart (hs : list handler) : Prop :=
  ∀ i j a k k', hs !! i = Some (Awaiting a k) → hs !! j = Some (Awaiting a k') → i = j.

Definition coherent (σ : memory * list handler) : Prop :=
  (∀ i h, σ.2 !! i = Some h → handler_ok σ.1 i h) ∧ arrays_apart σ.2.

End Coherence.

(** ** Sample inputs *)

(** The body that the page posts for its initial form. *)
Definition sample_body : json := Page.requestBody Page.initialForm.

(** A body with the three required texts, the topic two code units long. *)
Definition two_letter_topic : gmap string json :=
  <["topic" := JString "AI"]>
  (<["targetAudience" := JString "Busy YouTubers"]>
  (<["contentGoals" := JString "Educate on automation"]> ∅)).

(** The same with a topic of three code units. *)
Definition three_letter_topic : gmap string json :=
  <["topic" := JString "AIs"]> two_letter_topic.


(** A pipeline that reports one status message and then resolves. *)
Definition sample_status : json :=
  JObject (<["stage" := JString "Script"]> (<["detail" := JString "Drafting"]> ∅)).

Definition quiet_pipeline (_ : json) : pipeline_run :=
  onStatus sample_status (resolve JNull).

(** Two failures of different stages and causes behind one message, and
    two that are not instances of [Error]. *)
Definition render_timeout : thrown :=
  ErrorInstance "Pipeline stage failed"
    (<["stage" := JString "Render"]> (<["cause" := JString "render timed out"]> ∅)).

Definition publish_quota : thrown :=
  ErrorInstance "Pipeline stage failed"
    (<["stage" := JString "Publish"]> (<["cause" := JString "quota exceeded"]> ∅)).

Definition failing_pipeline (error : thrown) (_ : json) : pipeline_run :=
  onStatus sample_status (reject error).

(** Two requests whose runs take turns; the pipeline hands over its
    argument twice and resolves. *)
Definition echo_pipeline (parsed : json) : pipeline_run :=
  onStatus parsed (onStatus parsed (resolve parsed)).


Module Stubs.

Import Orchestrator.

(** Stub adapters that echo fixed outputs. *)
Definition stub_script : ScriptOutput :=
  mkScript "Hook" [mkScriptSection "Intro" "Why automate" 60;
                   mkScriptSection "Demo" "How it runs" 60] "Outro".

Definition stub_prompts (s : ScriptOutput) : list VisualPrompt :=
  (λ x, mkVisualPrompt (heading x) "A desk at dawn" (durationSeconds x))
    <$> sections s.

Definition stub_scriptwriter (_ : json) : string + ScriptOutput := inr stub_script.
Definition stub_promptDesigner (s : ScriptOutput) : string + list VisualPrompt :=
  inr (stub_prompts s).
Definition stub_renderer (_ : list VisualPrompt) (_ : ScriptOutput)
    : string + RenderOutput :=
  inr (mkRenderOutput "https://render.example/video.mp4").
Definition stub_publisher (_ : RenderOutput) (_ : json) : string + PublishOutput :=
  inr (mkPublishOutput "https://youtube.example/watch" (mkMetadata ["automation"])).

Definition stub_start (s : Stage) : string := "start".
Definition stub_done (s : Stage) : string := "done".

End Stubs.

(** ** Submitting the form and showing the answer *)

(** The property of the brief that an issue is about: the first key of
    its path. *)
Definition issue_field (i : Zod.ZodIssue) : option string :=
  match Zod.path i with
  | Zod.Key k :: _ => Some k
  | _ => None
  end.

(** The issues of one parse: none when it succeeds. *)
Definition issues_of (r : Zod.ParseReturn) : Zod.ZodError :=
  match r with inl e => e | inr _ => [] end.

(** A failed parse at path [p] has an issue, and each of its issues lies
    at [p] or below. *)
Definition well_reported (p : list Zod.PathSeg) (r : Zod.ParseReturn) : Prop :=
  match r with
  | inl es => es ≠ [] ∧ Forall (λ i, ∃ rest, Zod.path i = p ++ rest) es
  | inr _ => True
  end.

(** The code unit [c] occurs in [s]. *)
Fixpoint has_char (c : ascii) (s : string) : bool :=
  match s with
  | EmptyString => false
  | String c' s' => Ascii.eqb c' c || has_char c s'
  end.

Definition startsWithWhiteSpace (s : string) : bool :=
  match s with
  | String c _ => Page.isWhiteSpace c
  | EmptyString => false
  end.

Fixpoint endsWithWhiteSpace (s : string) : bool :=
  match s with
  | EmptyString => false
  | String c EmptyString => Page.isWhiteSpace c
  | String _ s' => endsWithWhiteSpace s'
  end.

(** The turns a request needs before it is settled: one to parse the
    body, and for a body that validates one for each status message and
    one for the settlement of the pipeline. *)
Definition turns_left (runAutomationPipeline : json → pipeline_run) (h : handler) : nat :=
  match h with
  | Entered body =>
      match payloadSchema_parse body with
      | inl _ => 1
      | inr parsed => 2 + length (emitted (runAutomationPipeline parsed))
      end
  | Awaiting _ k => 1 + length (emitted k)
  | Settled _ => 0
  end.

Module Home.

Import Page.

Section Component.

(** [Number.prototype.toString] is left open, and so is the message of
    the [TypeError] that reading a property of [null] raises (it differs
    between engines). *)
Variable numberToString : Q → string.
Variable nullReadMessage : string → string.

(** [String(v)] for a JSON value. *)
Fixpoint ToString (v : json) : string :=
  match v with
  | JNull => "null"
  | JBool b => if b then "true" else "false"
  | JNumber q => numberToString q
  | JString s => s
  | JArray l =>
      (fix join (l : list json) : string :=
         match l with
         | [] => ""
         | x :: rest =>
             let item := match x with JNull => "" | _ => ToString x end in
             match rest with
             | [] => item
             | _ => (item ++ "," ++ join rest)%string
             end
         end) l
  | JObject _ => "[object Object]"
  end.

(** [v.key] for one of the keys the page reads ([statusUpdates], [error],
    [result], [stage]): [undefined] unless [v] is an object that has it;
    a [TypeError] when [v] is [null]. *)
Definition getProperty (v : json) (key : string) : thrown + option json :=
  match v with
  | JNull => inl (ErrorInstance (nullReadMessage key) ∅)
  | JObject m => inr (m !! key)
  | _ => inr None
  end.

(** [v ?? d] *)
Definition nullish (v : option json) (d : json) : json :=
  match v with
  | None | Some JNull => d
  | Some x => x
  end.

(** What [fetch] and [response.json()] give: [fetch] rejects, or there is
    a response, with [response.ok] and a body that is JSON or is not. *)
Inductive body_read : Type :=
  | BodyJson (data : json)
  | BodyUnreadable (e : thrown).

Inductive fetched : Type :=
  | FetchRejected (e : thrown)
  | FetchResponse (ok : bool) (body : body_read).

(** A response of the route as [fetch] shows it to the page. *)
Definition reply (r : Response) : fetched :=
  FetchResponse ((200 <=? status r)%Z && (status r <=? 299)%Z) (BodyJson (payload r)).

(** The state of the [Home] component; [result] may hold [undefined]
    ([None]), [error] holds a string or [null] ([None]). *)
Record State : Type := mkState {
  form : FormState;
  status : json;
  result : option json;
  loading : bool;
  error : option string
}.

Definition initialState : State :=
  mkState initialForm (JArray []) (Some JNull) false None.

Definition setStatus (v : json) (s : State) : State :=
  mkState (form s) v (result s) (loading s) (error s).
Definition setResult (v : option json) (s : State) : State :=
  mkState (form s) (status s) v (loading s) (error s).
Definition setLoading (v : bool) (s : State) : State :=
  mkState (form s) (status s) (result s) v (error s).
Definition setError (v : option string) (s : State) : State :=
  mkState (form s) (status s) (result s) (loading s) v.

(** The [try] block of [handleSubmit]: the state it leaves and what it
    threw, if it did. *)
Definition try_block (s : State) (o : fetched) : State * option thrown :=
  match o with
  | FetchRejected e => (s, Some e)
  | FetchResponse _ (BodyUnreadable e) => (s, Some e)
  | FetchResponse ok (BodyJson data) =>
      match getProperty data "statusUpdates" with
      | inl e => (s, Some e)
      | inr updates =>
          let s1 := setStatus (nullish updates (JArray [])) s in
          if negb ok then
            match getProperty data "error" with
            | inl e => (s1, Some e)
            | inr message =>
                (s1, Some (ErrorInstance
                             (ToString (nullish message (JString "Pipeline failed"))) ∅))
            end
          else
            match getProperty data "result" with
            | inl e => (s1, Some e)
            | inr r => (setResult r s1, None)
            end
      end
  end.

(** The state in which the request is on its way. *)
Definition submitting (s : State) : State :=
  setError None (setResult (Some JNull) (setStatus (JArray []) (setLoading true s))).

(** [handleSubmit(event)], with what the request came back with. *)
Definition handleSubmit (s : State) (o : fetched) : State :=
  let '(s1, caught) := try_block (submitting s) o in
  let s2 :=
    match caught with
    | Some (ErrorInstance message _) => setError (Some message) s1
    | Some (NonError _) => setError (Some "Unexpected error") s1
    | None => s1
    end in
  setLoading false s2.

(** An array index in a template literal. *)
Definition decimal (n : nat) : string := NilEmpty.string_of_uint (Nat.to_uint n).

(** The [key] of the timeline item at [index]; [None] when reading
    [entry.stage] throws. *)
Definition entryKey (index : nat) (entry : json) : option string :=
  match getProperty entry "stage" with
  | inl _ => None
  | inr None => Some ("undefined" ++ "-" ++ decimal index)%string
  | inr (Some v) => Some (ToString v ++ "-" ++ decimal index)%string
  end.

(** The keys of the items that [status.map] renders, from [index] on. *)
Fixpoint timelineKeys (index : nat) (entries : list json) : option (list string) :=
  match entries with
  | [] => Some []
  | entry :: rest =>
      match entryKey index entry, timelineKeys (S index) rest with
      | Some k, Some ks => Some (k :: ks)
      | _, _ => None
      end
  end.

End Component.

End Home.

(** * Validation *)

Section ZodFacts.

Import Zod.

Lemma passes_string n p v : passes (string_ (Some n)) p v ↔ text_at_least n v.
Proof.
  unfold passes, text_at_least. split.
  - intros [o H]. destruct v as [[| | |s| |]|]; simpl in H; try discriminate.
    destruct (Nat.leb_spec n (String.length s)); [eauto | discriminate].
  - intros (s & -> & Hn). exists (Some (JString s)). simpl.
    apply Nat.leb_le in Hn. by rewrite Hn.
Qed.

Lemma passes_string_any p v : passes (string_ None) p v ↔ text_at_least 0 v.
Proof.
  unfold passes, text_at_least. split.
  - intros [o H]. destruct v as [[| | |s| |]|]; simpl in H; try discriminate.
    exists s. split; [done | lia].
  - intros (s & -> & _). by exists (Some (JString s)).
Qed.

Lemma passes_optional t p v : passes (optional t) p v ↔ absent_or (passes t p) v.
Proof.
  unfold passes, absent_or. destruct v as [v|]; simpl.
  - split; [by right | by intros [?|?]].
  - split; [by left | eauto].
Qed.

(** A value that a string schema accepts comes out unchanged. *)
Lemma parse_string_id minLength p v o : parse (string_ minLength) p v = inr o → o = v.
Proof.
  destruct v as [[| | |s| |]|]; simpl; try discriminate.
  destruct minLength as [n|]; [destruct (n <=? String.length s)%nat|]; congruence.
Qed.

Lemma parse_elements_strings n p i l :
  Forall (λ x, text_at_least n (Some x)) l
  → parse_elements (parse (string_ (Some n))) p i l = inr l.
Proof.
  intros H. revert i. induction H as [|x l Hx _ IH]; intros i; [done|].
  cbn [parse_elements]. rewrite IH.
  destruct Hx as (s & [= ->] & Hn). simpl.
  apply Nat.leb_le in Hn. by rewrite Hn.
Qed.

Lemma parse_elements_inr n p i l ws :
  parse_elements (parse (string_ (Some n))) p i l = inr ws
  → Forall (λ x, text_at_least n (Some x)) l.
Proof.
  revert i ws. induction l as [|x l IH]; intros i ws H; [constructor|].
  cbn [parse_elements] in H.
  destruct (parse (string_ (Some n)) (p ++ [Index i]) (Some x)) as [e|o] eqn:Hx.
  { destruct (parse_elements _ p (S i) l); discriminate. }
  destruct (parse_elements _ p (S i) l) as [es|ws'] eqn:Hl.
  { destruct o; discriminate. }
  constructor; [|by eapply IH].
  apply (passes_string n (p ++ [Index i])). by exists o.
Qed.

Lemma parse_array element p l :
  parse (array element) p (Some (JArray l))
  = match parse_elements (parse element) p 0 l with
    | inr ws => inr (Some (JArray ws))
    | inl es => inl es
    end.
Proof. reflexivity. Qed.

Lemma passes_keywords p v :
  passes (array (string_ (Some 1))) p v ↔ keyword_array v.
Proof.
  unfold passes, keyword_array. split.
  - intros [o H]. destruct v as [[| | | |l|]|]; try discriminate.
    rewrite parse_array in H.
    destruct (parse_elements _ p 0 l) as [es|ws] eqn:Hl; [discriminate|].
    exists l. split; [done|]. by eapply parse_elements_inr.
  - intros (l & -> & Hl). exists (Some (JArray l)).
    by rewrite parse_array, parse_elements_strings.
Qed.

Lemma parse_keywords_id p v o :
  parse (array (string_ (Some 1))) p v = inr o → o = v.
Proof.
  intros H. assert (keyword_array v) as (l & -> & Hl).
  { apply (passes_keywords p). by exists o. }
  rewrite parse_array, parse_elements_strings in H by done. congruence.
Qed.

Lemma passes_duration p v :
  passes (number [int; min (30 # 1); max (300 # 1)]) p v ↔ duration_in_bounds v.
Proof.
  unfold passes, duration_in_bounds. split.
  - intros [o H]. destruct v as [[| |q| | |]|]; simpl in H; try discriminate.
    exists q. rewrite <- !Qle_bool_iff.
    destruct (isInteger q), (Qle_bool (30 # 1) q), (Qle_bool q (300 # 1));
      simpl in H; try discriminate; done.
  - intros (q & -> & Hi & Hlo & Hhi). exists (Some (JNumber q)). simpl.
    apply Qle_bool_iff in Hlo, Hhi. by rewrite Hi, Hlo, Hhi.
Qed.

Lemma parse_number_id checks p v o : parse (number checks) p v = inr o → o = v.
Proof.
  destruct v as [[| |q| | |]|]; simpl; try discriminate.
  destruct (concat _); congruence.
Qed.

Lemma parse_optional_id t p v o :
  (∀ o', parse t p v = inr o' → o' = v) → parse (optional t) p v = inr o → o = v.
Proof. destruct v; simpl; [auto | congruence]. Qed.

(** An object schema accepts an object exactly when each key of the
    shape accepts the property of that name. *)
Lemma parse_fields_inr p m shape :
  (∃ out, parse_fields parse p m shape = inr out)
  ↔ Forall (λ kt, passes kt.2 (p ++ [Key kt.1]) (m !! kt.1)) shape.
Proof.
  induction shape as [|[k t] shape IH]; simpl.
  - split; [constructor | eauto].
  - rewrite Forall_cons, <- IH. unfold passes. simpl. split.
    + intros [out H].
      destruct (parse t (p ++ [Key k]) (m !! k)) as [e|o];
        destruct (parse_fields parse p m shape) as [es|out'];
        try discriminate; [destruct o; discriminate | eauto].
    + intros [[o ->] [out ->]]. destruct o; eauto.
Qed.

Lemma passes_object p m shape :
  passes (object shape) p (Some (JObject m))
  ↔ Forall (λ kt, passes kt.2 (p ++ [Key kt.1]) (m !! kt.1)) shape.
Proof.
  rewrite <- parse_fields_inr. unfold passes. simpl. split.
  - intros [o H]. destruct (parse_fields parse p m shape); [discriminate | eauto].
  - intros [out ->]. eauto.
Qed.

(** The output of an object schema has no key outside the shape, and under
    a key of the shape the parsed value of the input's property. *)
Lemma parse_fields_lookup p m shape out :
  NoDup shape.*1
  → parse_fields parse p m shape = inr out
  → ∀ k,
      (∀ t, (k, t) ∈ shape → parse t (p ++ [Key k]) (m !! k) = inr (out !! k))
      ∧ (k ∉ shape.*1 → out !! k = None).
Proof.
  revert out. induction shape as [|[k' t] shape IH]; simpl; intros out Hnd H k.
  - injection H as <-. split; [by intros t ?%elem_of_nil | by rewrite lookup_empty].
  - apply NoDup_cons in Hnd as [Hk' Hnd].
    destruct (parse t (p ++ [Key k']) (m !! k')) as [e|o] eqn:Ht;
      destruct (parse_fields parse p m shape) as [es|out'] eqn:Hs;
      try discriminate; [destruct o; discriminate|].
    specialize (IH out' Hnd eq_refl).
    assert (out !! k' = o ∧ ∀ k0, k0 ≠ k' → out !! k0 = out' !! k0) as [Hhere Hother].
    { destruct o as [w|]; injection H as <-.
      - split; [apply lookup_insert_eq | intros; by apply lookup_insert_ne].
      - split; [by apply IH | done]. }
    split.
    + intros t0 [[= -> ->]|Hin]%elem_of_cons; [by rewrite Hhere|].
      assert (k ≠ k') as Hne.
      { intros ->. apply Hk'. apply list_elem_of_fmap. by exists (k', t0). }
      rewrite Hother by done. by apply IH.
    + intros [Hne Hk]%not_elem_of_cons. rewrite Hother by done. by apply IH.
Qed.

(** A value that is present never parses to [undefined]. *)
Lemma parse_present t p v : parse t p (Some v) ≠ inr None.
Proof.
  revert p. induction t as [minLength|checks|element _|inner IH|shape]; intros p.
  - destruct v as [| | |s| |]; simpl; try discriminate.
    destruct minLength as [n|]; [destruct (n <=? String.length s)|]; discriminate.
  - destruct v; simpl; try discriminate. destruct (concat _); discriminate.
  - destruct v as [| | | |l|]; try discriminate. rewrite parse_array.
    destruct (parse_elements _ p 0 l); discriminate.
  - apply IH.
  - destruct v as [| | | | |m]; simpl; try discriminate.
    destruct (parse_fields parse p m shape); discriminate.
Qed.

Lemma parse_object_inr shape p v o :
  parse (object shape) p v = inr o
  → ∃ m out, v = Some (JObject m) ∧ o = Some (JObject out)
             ∧ parse_fields parse p m shape = inr out.
Proof.
  destruct v as [[| | | | |m]|]; simpl; try discriminate.
  destruct (parse_fields parse p m shape) as [es|out] eqn:H; [discriminate|].
  intros [= <-]. eauto.
Qed.

End ZodFacts.

Section PayloadSchema.

Import Zod.

Lemma payloadSchema_parse_inr body brief :
  payloadSchema_parse body = inr brief
  ↔ ∃ m out, body = JObject m ∧ brief = JObject out
             ∧ parse_fields parse [] m (shape payloadSchema) = inr out.
Proof.
  unfold payloadSchema_parse. split.
  - destruct (parse payloadSchema [] (Some body)) as [e|o] eqn:H; [discriminate|].
    apply parse_object_inr in H as (m & out & [= ->] & -> & H).
    intros [= <-]. eauto.
  - intros (m & out & -> & -> & H).
    change (parse payloadSchema [] (Some (JObject m)))
      with (match parse_fields parse [] m (shape payloadSchema) with
            | inr out => inr (Some (JObject out))
            | inl es => inl es
            end : ParseReturn).
    by rewrite H.
Qed.

Lemma accepted_passes body : accepted body ↔ passes payloadSchema [] (Some body).
Proof.
  unfold accepted, passes. split.
  - intros [brief H]. apply payloadSchema_parse_inr in H as (m & out & -> & -> & H).
    exists (Some (JObject out)).
    change (parse payloadSchema [] (Some (JObject m)))
      with (match parse_fields parse [] m (shape payloadSchema) with
            | inr out => inr (Some (JObject out))
            | inl es => inl es
            end : ParseReturn).
    by rewrite H.
  - intros [o H]. apply parse_object_inr in H as (m & out & [= ->] & -> & H).
    exists (JObject out). apply payloadSchema_parse_inr. eauto.
Qed.

(** The schema accepts an object exactly when its seven properties meet
    their constraints, the three required texts with least length 3. *)
Lemma accepted_iff m : accepted (JObject m) ↔ fields_valid 3 m.
Proof.
  rewrite accepted_passes. unfold payloadSchema. rewrite passes_object.
  rewrite !Forall_cons, Forall_nil. simpl.
  rewrite !passes_optional, !passes_string.
  unfold fields_valid, text_fields_valid, absent_or.
  rewrite (passes_string_any _ (m !! "tone")), (passes_string_any _ (m !! "callToAction")).
  rewrite passes_keywords, passes_duration. tauto.
Qed.

Lemma rejected_iff body : rejected body ↔ ¬ accepted body.
Proof.
  unfold rejected, accepted. destruct (payloadSchema_parse body) as [e|brief]; split.
  - intros _ [? [=]].
  - eauto.
  - intros [? [=]].
  - intros H. destruct H. eauto.
Qed.

(** Only an object is accepted. *)
Lemma accepted_object body : accepted body → ∃ m, body = JObject m.
Proof. intros [brief (m & _ & -> & _)%payloadSchema_parse_inr]. eauto. Qed.

(** The parsed brief is the body cut down to the properties of a brief. *)
Lemma parsed_brief m brief :
  payloadSchema_parse (JObject m) = inr brief
  → ∃ out, brief = JObject out
           ∧ ∀ k, out !! k = if decide (k ∈ brief_fields) then m !! k else None.
Proof.
  intros (m' & out & [= <-] & -> & H)%payloadSchema_parse_inr.
  exists out. split; [done|]. intros k.
  assert (NoDup (shape payloadSchema).*1) as Hnd by (apply (bool_decide_unpack _); by vm_compute).
  destruct (parse_fields_lookup _ _ _ _ Hnd H k) as [Hin Hout].
  change (shape payloadSchema).*1 with brief_fields in Hout.
  case_decide as Hk; [|by apply Hout].
  unfold brief_fields in Hk. rewrite !elem_of_cons, elem_of_nil in Hk.
  assert (∃ t, (k, t) ∈ shape payloadSchema
               ∧ ∀ o, parse t ([] ++ [Key k]) (m !! k) = inr o → o = m !! k)
    as (t & Ht & Hid).
  { destruct Hk as [->|[->|[->|[->|[->|[->|[->|[]]]]]]]]; eexists;
      (split; [simpl; rewrite !elem_of_cons; eauto 10|]); intros o;
      eauto using parse_string_id, parse_optional_id, parse_keywords_id,
        parse_number_id. }
  by apply Hid, Hin.
Qed.



End PayloadSchema.

(** * The route handler *)

Section Memory.

Lemma read_push a v μ :
  a < length (arrays μ) → read a (push a v μ) = read a μ ++ [v].
Proof.
  intros Ha. unfold read, push. simpl.
  destruct (lookup_lt_is_Some_2 _ _ Ha) as [l Hl].
  by rewrite list_lookup_alter_eq, Hl.
Qed.

Lemma read_push_ne a b v μ : a ≠ b → read b (push a v μ) = read b μ.
Proof. intros Hne. unfold read, push. simpl. by rewrite list_lookup_alter_ne. Qed.

Lemma length_push a v μ : length (arrays (push a v μ)) = length (arrays μ).
Proof. unfold push. simpl. apply length_alter. Qed.

Lemma read_new_array μ :
  read (new_array μ).1 (new_array μ).2 = []
  ∧ arrays μ !! (new_array μ).1 = None
  ∧ ∀ b, b < length (arrays μ) → read b (new_array μ).2 = read b μ.
Proof.
  unfold read, new_array. simpl. split_and!.
  - by rewrite lookup_app_r, Nat.sub_diag by lia.
  - by apply lookup_ge_None.
  - intros b Hb. by rewrite lookup_app_l.
Qed.

Lemma await_pipeline_outcome μ a run :
  a < length (arrays μ)
  → (await_pipeline μ a run).2
    = Returned (response_to (settlement run) (read a μ ++ emitted run)).
Proof.
  revert μ. induction run as [status k IH|result|error]; intros μ Ha; simpl.
  - rewrite IH by (by rewrite length_push). rewrite read_push by done.
    by rewrite <- app_assoc.
  - by rewrite app_nil_r.
  - by rewrite app_nil_r.
Qed.

Lemma await_pipeline_calls μ a run :
  pipelineCalls (await_pipeline μ a run).1 = pipelineCalls μ.
Proof. revert μ. induction run; intros μ; simpl; [by rewrite IHrun | done | done]. Qed.

End Memory.

Section RouteFacts.

Variable runAutomationPipeline : json → pipeline_run.

Lemma POST_rejected μ body e :
  payloadSchema_parse body = inl e → POST runAutomationPipeline μ body = (μ, Threw e).
Proof. intros H. unfold POST. by rewrite H. Qed.

Lemma POST_accepted μ body parsed :
  payloadSchema_parse body = inr parsed
  → (POST runAutomationPipeline μ body).2
    = Returned (response_to (settlement (runAutomationPipeline parsed))
                  (emitted (runAutomationPipeline parsed))).
Proof.
  intros H. unfold POST. rewrite H.
  destruct (read_new_array μ) as (Hnew & _ & _).
  destruct (new_array μ) as [a μ1] eqn:Hμ1. simpl in Hnew.
  rewrite await_pipeline_outcome.
  - unfold call_logged, read in *. simpl. by rewrite Hnew.
  - unfold new_array in Hμ1. injection Hμ1 as <- <-. simpl.
    rewrite length_app. simpl. lia.
Qed.

Lemma POST_calls μ body :
  pipelineCalls (POST runAutomationPipeline μ body).1
  = pipelineCalls μ
    ++ match payloadSchema_parse body with inr parsed => [parsed] | inl _ => [] end.
Proof.
  unfold POST. destruct (payloadSchema_parse body) as [e|parsed]; simpl.
  - by rewrite app_nil_r.
  - by rewrite await_pipeline_calls.
Qed.

End RouteFacts.

(** ** Claims on validation *)

(** C5. With the other properties valid, the schema accepts a body without
    [durationSeconds], accepts 30 and 300, rejects 29 and 301, and rejects
    every value that is not an integer number. *)
Theorem durationSeconds_bounds (m : gmap string json) :
  text_fields_valid 3 m
  → accepted (JObject (delete "durationSeconds" m))
    ∧ accepted (JObject (<["durationSeconds" := JNumber (30 # 1)]> m))
    ∧ accepted (JObject (<["durationSeconds" := JNumber (300 # 1)]> m))
    ∧ rejected (JObject (<["durationSeconds" := JNumber (29 # 1)]> m))
    ∧ rejected (JObject (<["durationSeconds" := JNumber (301 # 1)]> m))
    ∧ ∀ v, (∀ q, v = JNumber q → Zod.isInteger q = false)
           → rejected (JObject (<["durationSeconds" := v]> m)).
Proof.
  intros Hm.
  assert (∀ v, text_fields_valid 3 (<["durationSeconds" := v]> m)) as Hins.
  { intros v. unfold text_fields_valid in *. by rewrite !lookup_insert_ne. }
  assert (∀ v, ¬ duration_in_bounds (Some v)
               → rejected (JObject (<["durationSeconds" := v]> m))) as Hrej.
  { intros v Hv. rewrite rejected_iff, accepted_iff. intros [_ [Hd|Hd]].
    - by rewrite lookup_insert_eq in Hd.
    - by rewrite lookup_insert_eq in Hd. }
  assert (∀ q, Zod.isInteger q = true → (30 # 1 <= q)%Q → (q <= 300 # 1)%Q
               → accepted (JObject (<["durationSeconds" := JNumber q]> m))) as Hacc.
  { intros q ? ? ?. rewrite accepted_iff. split; [done|]. right.
    rewrite lookup_insert_eq. by exists q. }
  split_and!.
  - rewrite accepted_iff. split.
    + unfold text_fields_valid in *. by rewrite !lookup_delete_ne.
    + left. apply lookup_delete_eq.
  - by apply Hacc.
  - by apply Hacc.
  - apply Hrej. intros (q & [= <-] & _ & Hlo & _). by apply Hlo.
  - apply Hrej. intros (q & [= <-] & _ & _ & Hhi). by apply Hhi.
  - intros v Hv. apply Hrej. intros (q & [= ->] & Hi & _).
    rewrite (Hv q eq_refl) in Hi. discriminate.
Qed.

Lemma durationSeconds_bounds_witness :
  text_fields_valid 3 three_letter_topic
  ∧ accepted (JObject (<["durationSeconds" := JNumber (30 # 1)]> three_letter_topic))
  ∧ rejected (JObject (<["durationSeconds" := JNumber (61 # 2)]> three_letter_topic)).
Proof.
  assert (text_fields_valid 3 three_letter_topic) as H.
  { unfold text_fields_valid, absent_or.
    split_and!; try (by left);
      (eexists; split; [reflexivity | simpl; lia]). }
  split; [exact H|].
  destruct (durationSeconds_bounds three_letter_topic H) as (_ & H30 & _ & _ & _ & Hv).
  split; [exact H30|].
  apply Hv. intros q [= <-]. reflexivity.
Defined.

(** C6, as stated: the three required texts non-empty and no optional
    property present, yet the body is rejected. *)
Lemma nonempty_texts_rejected :
  fields_valid 1 two_letter_topic ∧ rejected (JObject two_letter_topic).
Proof.
  split.
  - unfold fields_valid, text_fields_valid, absent_or.
    split_and!; try (by left);
      (eexists; split; [reflexivity | simpl; lia]).
  - eexists. vm_compute. reflexivity.
Qed.

(** C6, amended: a body whose topic, targetAudience and contentGoals are
    strings of three code units or more, and whose optional properties,
    where present, meet their constraints, is accepted. *)
Theorem texts_of_three_accepted (m : gmap string json) :
  fields_valid 3 m → accepted (JObject m).
Proof. apply accepted_iff. Qed.

Lemma texts_of_three_accepted_witness :
  fields_valid 3 three_letter_topic ∧ accepted (JObject three_letter_topic).
Proof.
  assert (fields_valid 3 three_letter_topic) as H.
  { unfold fields_valid, text_fields_valid, absent_or.
    split_and!; try (by left);
      (eexists; split; [reflexivity | simpl; lia]). }
  split; [exact H | exact (texts_of_three_accepted three_letter_topic H)].
Defined.

(** ** Claims on the route handler *)

Section RouteClaims.

Variable runAutomationPipeline : json → pipeline_run.

(** C1, amended: a body that fails validation makes [POST] throw the
    [ZodError] of [payloadSchema.parse]; the function builds no response,
    and [runAutomationPipeline] is not called. *)
Theorem POST_invalid_body_throws (μ : memory) (body : json) (e : Zod.ZodError) :
  payloadSchema_parse body = inl e
  → (POST runAutomationPipeline μ body).2 = Threw e
    ∧ pipelineCalls (POST runAutomationPipeline μ body).1 = pipelineCalls μ.
Proof. intros H. by rewrite (POST_rejected _ _ _ _ H). Qed.

(** C2. For a body that validates, [POST] returns a response.  When the
    pipeline resolves, the status is 200 and the payload is the object
    with [ok] true, [result] the pipeline's result and [statusUpdates],
    and no other property; when it rejects, the status is 500 (not of
    class 2xx) and the payload is the object with [ok] false, [error] the
    message of the failure and [statusUpdates], and no other property.
    Either way [statusUpdates] is the array of every status message the
    run handed over, in order. *)
Theorem POST_envelope (μ : memory) (body parsed : json) :
  payloadSchema_parse body = inr parsed
  → let statusUpdates := emitted (runAutomationPipeline parsed) in
    (∀ result, settlement (runAutomationPipeline parsed) = inl result
       → ∃ fields,
           (POST runAutomationPipeline μ body).2
           = Returned (mkResponse 200 (JObject fields))
           ∧ fields !! "ok" = Some (JBool true)
           ∧ fields !! "result" = Some result
           ∧ fields !! "statusUpdates" = Some (JArray statusUpdates)
           ∧ ∀ k, k ∉ ["ok"; "result"; "statusUpdates"] → fields !! k = None)
    ∧ (∀ error, settlement (runAutomationPipeline parsed) = inr error
       → ∃ r fields,
           (POST runAutomationPipeline μ body).2 = Returned r
           ∧ status r = 500%Z
           ∧ ¬ (200 ≤ status r < 300)%Z
           ∧ payload r = JObject fields
           ∧ fields !! "ok" = Some (JBool false)
           ∧ fields !! "error"
             = Some (JString match error with
                             | ErrorInstance message _ => message
                             | NonError _ => "Unknown pipeline failure"
                             end)
           ∧ fields !! "statusUpdates" = Some (JArray statusUpdates)
           ∧ ∀ k, k ∉ ["ok"; "error"; "statusUpdates"] → fields !! k = None).
Proof.
  intros H statusUpdates. rewrite (POST_accepted _ _ _ _ H). split.
  - intros result ->. simpl. eexists. split; [reflexivity|].
    split_and!; try done.
    intros k Hk. rewrite !not_elem_of_cons in Hk. destruct Hk as (? & ? & ? & _).
    by rewrite !lookup_insert_ne, lookup_empty.
  - intros error ->. simpl. eexists _, _. split; [reflexivity|]. simpl.
    split_and!; try done; [lia|].
    intros k Hk. rewrite !not_elem_of_cons in Hk. destruct Hk as (? & ? & ? & _).
    by rewrite !lookup_insert_ne, lookup_empty.
Qed.

(** C3, amended: when the pipeline rejects with an [Error], the response
    has status 500 and the properties [ok], [error] and [statusUpdates]
    and no other; [error] is the message of that [Error], whatever else
    the [Error] carries, and [statusUpdates] holds the status messages
    handed over before the failure. *)
Theorem POST_failure_forwards_message (μ : memory) (body parsed : json)
    (message : string) (props : gmap string json) :
  payloadSchema_parse body = inr parsed
  → settlement (runAutomationPipeline parsed) = inr (ErrorInstance message props)
  → ∃ fields,
      (POST runAutomationPipeline μ body).2 = Returned (mkResponse 500 (JObject fields))
      ∧ fields !! "ok" = Some (JBool false)
      ∧ fields !! "error" = Some (JString message)
      ∧ fields !! "statusUpdates"
        = Some (JArray (emitted (runAutomationPipeline parsed)))
      ∧ ∀ k, k ∉ ["ok"; "error"; "statusUpdates"] → fields !! k = None.
Proof.
  intros H Hs. rewrite (POST_accepted _ _ _ _ H), Hs. simpl.
  eexists. split; [reflexivity|]. split_and!; try done.
  intros k Hk. rewrite !not_elem_of_cons in Hk. destruct Hk as (? & ? & ? & _).
  by rewrite !lookup_insert_ne, lookup_empty.
Qed.


(** C10. When the pipeline rejects with a value that is not an [Error],
    the response has status 500 and its [error] is the string
    "Unknown pipeline failure". *)
Theorem POST_unknown_failure (μ : memory) (body parsed v : json) :
  payloadSchema_parse body = inr parsed
  → settlement (runAutomationPipeline parsed) = inr (NonError v)
  → (POST runAutomationPipeline μ body).2
    = Returned (mkResponse 500
        (JObject (<["ok" := JBool false]>
                 (<["error" := JString "Unknown pipeline failure"]>
                 (<["statusUpdates" := JArray (emitted (runAutomationPipeline parsed))]>
                    ∅))))).
Proof. intros H Hs. by rewrite (POST_accepted _ _ _ _ H), Hs. Qed.

End RouteClaims.

(** C1, as stated: the empty object lacks the required properties, and the
    call of [POST] ends without a response, so with none of class 4xx. *)
Lemma POST_invalid_body_no_response :
  rejected (JObject ∅)
  ∧ ¬ ∃ r, (POST quiet_pipeline boot (JObject ∅)).2 = Returned r
           ∧ (400 ≤ status r < 500)%Z.
Proof.
  split.
  - eexists. vm_compute. reflexivity.
  - intros (r & H & _). vm_compute in H. discriminate.
Qed.

Lemma POST_invalid_body_throws_witness :
  ∃ e, payloadSchema_parse (JObject two_letter_topic) = inl e
       ∧ (POST quiet_pipeline boot (JObject two_letter_topic)).2 = Threw e
       ∧ pipelineCalls (POST quiet_pipeline boot (JObject two_letter_topic)).1 = [].
Proof.
  eexists. split; [vm_compute; reflexivity|].
  apply (POST_invalid_body_throws quiet_pipeline boot (JObject two_letter_topic)).
  vm_compute. reflexivity.
Defined.

Lemma POST_envelope_witness :
  ∃ parsed fields, payloadSchema_parse sample_body = inr parsed
    ∧ (POST quiet_pipeline boot sample_body).2
      = Returned (mkResponse 200 (JObject fields))
    ∧ fields !! "ok" = Some (JBool true)
    ∧ fields !! "result" = Some JNull
    ∧ fields !! "statusUpdates" = Some (JArray [sample_status]).
Proof.
  eexists.
  destruct (proj1 (POST_envelope quiet_pipeline boot sample_body _
                     ltac:(vm_compute; reflexivity)) JNull eq_refl)
    as (fields & Hpost & Hok & Hresult & Hupdates & _).
  exists fields. split; [vm_compute; reflexivity|].
  split_and!; [exact Hpost | exact Hok | exact Hresult | exact Hupdates].
Defined.


(** C3, as stated: two failures that differ in stage and in cause give the
    same response, from which neither can be told. *)
Lemma POST_failure_forgets_stage_and_cause :
  render_timeout ≠ publish_quota
  ∧ (POST (failing_pipeline render_timeout) boot sample_body).2
    = (POST (failing_pipeline publish_quota) boot sample_body).2.
Proof.
  split.
  - intros H.
    apply (f_equal (λ t, match t with
                         | ErrorInstance _ props => props !! "stage"
                         | NonError _ => None
                         end)) in H.
    vm_compute in H. discriminate.
  - vm_compute. reflexivity.
Qed.

Lemma POST_failure_forwards_message_witness :
  ∃ parsed fields, payloadSchema_parse sample_body = inr parsed
    ∧ (POST (failing_pipeline render_timeout) boot sample_body).2
      = Returned (mkResponse 500 (JObject fields))
    ∧ fields !! "error" = Some (JString "Pipeline stage failed")
    ∧ fields !! "stage" = None.
Proof.
  eexists.
  destruct (POST_failure_forwards_message (failing_pipeline render_timeout) boot
              sample_body _ "Pipeline stage failed"
              (<["stage" := JString "Render"]>
                 (<["cause" := JString "render timed out"]> ∅))
              ltac:(vm_compute; reflexivity) eq_refl)
    as (fields & Hpost & _ & Herror & _ & Hother).
  exists fields. split; [vm_compute; reflexivity|].
  split; [exact Hpost|]. split; [exact Herror|].
  apply Hother. rewrite !not_elem_of_cons. split_and!; try discriminate.
  apply not_elem_of_nil.
Defined.

Lemma POST_unknown_failure_witness :
  ∃ parsed, payloadSchema_parse sample_body = inr parsed
    ∧ (POST (failing_pipeline (NonError (JString "quota"))) boot sample_body).2
      = Returned (mkResponse 500
          (failure_body "Unknown pipeline failure" [sample_status])).
Proof.
  eexists. split; [vm_compute; reflexivity|].
  refine (POST_unknown_failure (failing_pipeline (NonError (JString "quota"))) boot
            sample_body _ (JString "quota") _ _).
  - vm_compute. reflexivity.
  - reflexivity.
Defined.

(** * The orchestrator *)

Module OrchestratorFacts.

Import Orchestrator Stubs.

Section Run.

Context {Brief Cause : Type}.
Variable scriptwriter : Brief → Cause + ScriptOutput.
Variable promptDesigner : ScriptOutput → Cause + list VisualPrompt.
Variable renderer : list VisualPrompt → ScriptOutput → Cause + RenderOutput.
Variable publisher : RenderOutput → Brief → Cause + PublishOutput.
Variable startDetail doneDetail : Stage → string.

Local Abbreviation run :=
  (run scriptwriter promptDesigner renderer publisher startDetail doneDetail).
Local Abbreviation started := (started startDetail).
Local Abbreviation completed := (completed doneDetail).

(** C4. A run that succeeds appends to the trace, in this order and
    nothing else: for each of Script, Prompt, Render and Publish the
    start event, the call of the stage's adapter and the completion
    event; the sink receives these eight events. *)
Theorem run_success_trace (brief : Brief) (before after : list Action)
    (result : PipelineResult) :
  run brief before = (after, inr result)
  → after = before ++
      [ Emitted (started Script); Invoked Script; Emitted (completed Script);
        Emitted (started Prompt); Invoked Prompt; Emitted (completed Prompt);
        Emitted (started Render); Invoked Render; Emitted (completed Render);
        Emitted (started Publish); Invoked Publish; Emitted (completed Publish) ]
    ∧ sink after = sink before ++
      [ started Script; completed Script; started Prompt; completed Prompt;
        started Render; completed Render; started Publish; completed Publish ]
    ∧ length (sink after) = length (sink before) + 8.
Proof.
  unfold Orchestrator.run, bind, emit, invoke, ret.
  destruct (scriptwriter brief) as [c|s]; [discriminate|].
  destruct (promptDesigner s) as [c|ps]; [discriminate|].
  destruct (renderer ps s) as [c|r]; [discriminate|].
  destruct (publisher r brief) as [c|p]; [discriminate|].
  intros [= <- _]. rewrite <- !app_assoc. simpl.
  assert (∀ l l' : list Action, sink (l ++ l') = sink l ++ sink l') as Happ.
  { intros l l'. unfold sink. apply omap_app. }
  split; [done|]. rewrite Happ. split; [done|].
  rewrite length_app. simpl. done.
Qed.

(** The run succeeds when the four adapters do. *)
Lemma run_succeeds (brief : Brief) (before : list Action) s ps r p :
  scriptwriter brief = inr s → promptDesigner s = inr ps
  → renderer ps s = inr r → publisher r brief = inr p
  → ∃ after result, run brief before = (after, inr result).
Proof.
  intros Hs Hps Hr Hp. unfold Orchestrator.run, bind, emit, invoke, ret.
  rewrite Hs, Hps, Hr, Hp. eauto.
Qed.

End Run.

Lemma run_success_trace_witness :
  ∃ after result,
    run stub_scriptwriter stub_promptDesigner stub_renderer stub_publisher
      stub_start stub_done sample_body [] = (after, inr result)
    ∧ length (sink after) = 8.
Proof.
  eexists. eexists. split; [reflexivity|].
  refine (proj2 (proj2 (run_success_trace stub_scriptwriter stub_promptDesigner
                          stub_renderer stub_publisher stub_start stub_done
                          sample_body [] _ _ _))).
  reflexivity.
Defined.

End OrchestratorFacts.

(** * Requests in flight together *)

Section Requests.

Variable runAutomationPipeline : json → pipeline_run.
Variable bodies : list json.

Local Abbreviation handler_ok := (handler_ok runAutomationPipeline bodies).
Local Abbreviation coherent := (coherent runAutomationPipeline bodies).

Lemma coherent_start μ : coherent (μ, Entered <$> bodies).
Proof.
  split; simpl.
  - intros i h (body & -> & Hb)%list_lookup_fmap_Some. by exists body.
  - intros i j a k k' (? & [=] & _)%list_lookup_fmap_Some.
Qed.

Lemma handler_ok_frame μ μ' i h :
  length (arrays μ) ≤ length (arrays μ')
  → (∀ a k, h = Awaiting a k → read a μ' = read a μ)
  → handler_ok μ i h → handler_ok μ' i h.
Proof.
  intros Hlen Hread (body & Hb & H). exists body. split; [done|].
  destruct h as [b|a k|o]; [done| |done].
  destruct H as (Ha & parsed & Hp & He & Hs).
  split; [lia|]. exists parsed. by rewrite (Hread a k eq_refl).
Qed.

Lemma lookup_insert_handler (hs : list handler) i j h h' :
  <[i := h']> hs !! j = Some h → (i = j ∧ h = h') ∨ (i ≠ j ∧ hs !! j = Some h).
Proof.
  intros H. destruct (decide (i = j)) as [->|Hne].
  - left. split; [done|].
    assert (j < length hs) as Hj.
    { apply lookup_lt_Some in H. by rewrite length_insert in H. }
    rewrite list_lookup_insert_eq in H by done. congruence.
  - right. by rewrite list_lookup_insert_ne in H.
Qed.

Lemma arrays_apart_settle hs i o :
  arrays_apart hs → arrays_apart (<[i := Settled o]> hs).
Proof.
  intros Hap j1 j2 a k k' H1 H2.
  apply lookup_insert_handler in H1 as [[_ [=]]|[_ H1]].
  apply lookup_insert_handler in H2 as [[_ [=]]|[_ H2]].
  eauto.
Qed.

Lemma coherent_step σ i : coherent σ → coherent (schedule_step runAutomationPipeline σ i).
Proof.
  destruct σ as [μ hs]. intros [Hok Hap]. unfold schedule_step. simpl in *.
  destruct (hs !! i) as [h|] eqn:Hi; [|done].
  destruct (Hok i h Hi) as (body & Hb & Hh).
  destruct h as [b|a [status k|result|error]|o]; simpl.
  - (* the request enters: the body is parsed *)
    subst b. destruct (payloadSchema_parse body) as [e|parsed] eqn:Hp; simpl.
    + split; simpl; [|by apply arrays_apart_settle].
      intros j h [[<- ->]|[_ Hj]]%lookup_insert_handler; [|by apply Hok].
      exists body. split; [done|]. by rewrite (POST_rejected _ _ _ _ Hp).
    + split; simpl.
      * intros j h [[<- ->]|[Hne Hj]]%lookup_insert_handler.
        -- exists body. split; [done|]. simpl. rewrite length_app. simpl.
           split; [lia|]. exists parsed. split; [done|]. split; [|done].
           unfold read. simpl. by rewrite lookup_app_r, Nat.sub_diag by lia.
        -- eapply handler_ok_frame; [| |by apply Hok]; simpl.
           ++ rewrite length_app. lia.
           ++ intros a k ->. destruct (Hok j _ Hj) as (? & _ & Ha & _).
              unfold read. simpl. by rewrite lookup_app_l.
      * intros j1 j2 a k k' H1 H2.
        apply lookup_insert_handler in H1 as [[<- E1]|[Hne1 H1]];
          apply lookup_insert_handler in H2 as [[<- E2]|[Hne2 H2]].
        -- done.
        -- injection E1 as -> ->. destruct (Hok j2 _ H2) as (? & _ & Ha & _). lia.
        -- injection E2 as -> ->. destruct (Hok j1 _ H1) as (? & _ & Ha & _). lia.
        -- eauto.
  - (* the pipeline hands over a status message *)
    destruct Hh as (Ha & parsed & Hp & He & Hs). split; cbn [fst snd].
    + intros j h [[<- ->]|[Hne Hj]]%lookup_insert_handler.
      * exists body. split; [done|]. rewrite length_push.
        split; [done|]. exists parsed. split; [done|]. split; [|done].
        rewrite read_push by done. by rewrite <- app_assoc.
      * eapply handler_ok_frame; [| |by apply Hok].
        -- by rewrite length_push.
        -- intros a' k' ->. apply read_push_ne. intros ->. by apply Hne, (Hap _ _ _ _ _ Hi Hj).
    + intros j1 j2 a' k1 k2 H1 H2.
      apply lookup_insert_handler in H1 as [[<- E1]|[Hne1 H1]];
        apply lookup_insert_handler in H2 as [[<- E2]|[Hne2 H2]].
      * done.
      * injection E1 as -> ->. by apply (Hap _ _ _ _ _ Hi H2).
      * injection E2 as -> ->. symmetry. by apply (Hap _ _ _ _ _ Hi H1).
      * eauto.
  - (* the pipeline resolves *)
    destruct Hh as (Ha & parsed & Hp & He & Hs). split; simpl; [|by apply arrays_apart_settle].
    intros j h [[<- ->]|[_ Hj]]%lookup_insert_handler; [|by apply Hok].
    exists body. split; [done|]. rewrite (POST_accepted _ _ _ _ Hp).
    simpl in *. rewrite app_nil_r in He. by rewrite <- He, <- Hs.
  - (* the pipeline rejects *)
    destruct Hh as (Ha & parsed & Hp & He & Hs). split; simpl; [|by apply arrays_apart_settle].
    intros j h [[<- ->]|[_ Hj]]%lookup_insert_handler; [|by apply Hok].
    exists body. split; [done|]. rewrite (POST_accepted _ _ _ _ Hp).
    simpl in *. rewrite app_nil_r in He. by rewrite <- He, <- Hs.
  - (* settled: nothing moves *)
    rewrite list_insert_id by done. by split.
Qed.

Lemma coherent_run schedule σ :
  coherent σ → coherent (run_schedule runAutomationPipeline schedule σ).
Proof.
  revert σ. induction schedule as [|i schedule IH]; intros σ Hσ; [done|].
  simpl. by apply IH, coherent_step.
Qed.

End Requests.

(** C8. A request gets an array of its own, at an address not in use and
    empty; and however the requests in flight take turns, each one that
    settles does so as it would alone on a server just booted: its
    [statusUpdates] hold the status messages of its own run and none of
    another's. *)
Theorem statusUpdates_per_request (runAutomationPipeline : json → pipeline_run)
    (bodies : list json) (μ0 : memory) (schedule : list nat) :
  (∀ μ body parsed, payloadSchema_parse body = inr parsed
     → ∃ a μ', step runAutomationPipeline μ (Entered body)
                 = (μ', Awaiting a (runAutomationPipeline parsed))
               ∧ arrays μ !! a = None ∧ arrays μ' !! a = Some [])
  ∧ (∀ i o,
       (run_schedule runAutomationPipeline schedule (μ0, Entered <$> bodies)).2 !! i
       = Some (Settled o)
       → ∃ body, bodies !! i = Some body
                 ∧ o = (POST runAutomationPipeline boot body).2).
Proof.
  split.
  - intros μ body parsed H. simpl. rewrite H. eexists _, _. split; [done|]. simpl.
    split; [by apply lookup_ge_None|]. by rewrite lookup_app_r, Nat.sub_diag by lia.
  - intros i o Hi.
    destruct (coherent_run runAutomationPipeline bodies schedule _ (coherent_start runAutomationPipeline bodies μ0))
      as [Hok _].
    by destruct (Hok i _ Hi) as (body & Hb & ->); eauto.
Qed.

Lemma statusUpdates_per_request_witness :
  ∃ o, (run_schedule echo_pipeline [0; 1; 1; 0; 1; 0; 0; 1]
          (boot, Entered <$> [JObject three_letter_topic; sample_body])).2 !! 1
       = Some (Settled o)
       ∧ o = (POST echo_pipeline boot sample_body).2.
Proof.
  eexists. split; [vm_compute; reflexivity|].
  destruct (proj2 (statusUpdates_per_request echo_pipeline
                     [JObject three_letter_topic; sample_body] boot
                     [0; 1; 1; 0; 1; 0; 0; 1]) 1 _ ltac:(vm_compute; reflexivity))
    as (body & [= <-] & ->).
  reflexivity.
Defined.

(** * The brief form *)

Section Form.

Import Page.

Lemma isInteger_minus_30 q : Zod.isInteger (q - (30 # 1)) = Zod.isInteger q.
Proof.
  unfold Zod.isInteger. destruct q as [n d]. simpl.
  rewrite Pos.mul_1_r, Z.mul_1_r.
  replace (n + -30 * Z.pos d)%Z with (n + (-30) * Z.pos d)%Z by lia.
  by rewrite Z_mod_plus_full.
Qed.

(** The duration control admits the values that the schema admits. *)
Lemma number_valid_duration q :
  number_valid durationSecondsControl q = true ↔ duration_in_bounds (Some (JNumber q)).
Proof.
  unfold number_valid, rangeUnderflow, rangeOverflow, stepMismatch, duration_in_bounds.
  simpl. rewrite isInteger_minus_30, !negb_involutive, !andb_true_iff, !Qle_bool_iff.
  split.
  - intros [[? ?] ?]. by exists q.
  - intros (q' & [= <-] & ? & ? & ?). done.
Qed.

Lemma text_valid_required c value :
  required c = true → text_valid c value = true ↔ 1 ≤ String.length value.
Proof.
  intros Hc. unfold text_valid, valueMissing. rewrite Hc. simpl.
  destruct (String.length value); simpl; split; (done || lia).
Qed.

Lemma text_valid_optional c value : required c = false → text_valid c value = true.
Proof. intros Hc. unfold text_valid, valueMissing. by rewrite Hc. Qed.

Lemma keywordList_nonempty form :
  Forall (λ x, text_at_least 1 (Some x)) (JString <$> keywordList form).
Proof.
  apply Forall_fmap, Forall_forall. intros s Hs%list_elem_of_In.
  apply filter_In in Hs as [_ Hs]. exists s. split; [done|].
  unfold truthy in Hs. destruct (String.length s); [discriminate | lia].
Qed.

Lemma checkValidity_iff form :
  checkValidity form = true
  ↔ 1 ≤ String.length (topic form)
    ∧ 1 ≤ String.length (targetAudience form)
    ∧ 1 ≤ String.length (contentGoals form)
    ∧ number_valid durationSecondsControl (durationSeconds form) = true.
Proof.
  unfold checkValidity. rewrite !andb_true_iff.
  rewrite !text_valid_required by done.
  rewrite (text_valid_optional toneControl), (text_valid_optional keywordsControl),
    (text_valid_optional callToActionControl) by done.
  tauto.
Qed.

Lemma requestBody_accepted form :
  accepted (requestBody form)
  ↔ 3 ≤ String.length (topic form)
    ∧ 3 ≤ String.length (targetAudience form)
    ∧ 3 ≤ String.length (contentGoals form)
    ∧ duration_in_bounds (Some (JNumber (durationSeconds form))).
Proof.
  unfold requestBody. rewrite accepted_iff.
  unfold fields_valid, text_fields_valid.
  repeat (rewrite lookup_insert_eq || rewrite lookup_insert_ne by done).
  split.
  - intros (((s1 & [= <-] & ?) & (s2 & [= <-] & ?) & (s3 & [= <-] & ?) & _) & [[=]|?]).
    done.
  - intros (? & ? & ? & ?). split_and!; try (right); try done.
    + by eexists.
    + by eexists.
    + by eexists.
    + eexists. split; [done | lia].
    + eexists. split; [done|]. apply keywordList_nonempty.
    + eexists. split; [done | lia].
Qed.

End Form.




(** * More on validation *)

Section MoreValidation.

Import Zod.

Lemma brief_fields_shape k :
  k ∈ brief_fields ↔ ∃ t, (k, t) ∈ shape payloadSchema.
Proof.
  change brief_fields with (shape payloadSchema).*1.
  rewrite list_elem_of_fmap. split.
  - intros ([k' t] & -> & H). by exists t.
  - intros [t H]. by exists (k, t).
Qed.

Lemma parsed_lookup m out k :
  payloadSchema_parse (JObject m) = inr (JObject out)
  → k ∈ brief_fields → out !! k = m !! k.
Proof.
  intros (out' & [= <-] & Hout)%parsed_brief Hk.
  by rewrite Hout, decide_True.
Qed.

(** X1. Validating a brief that validation gave changes nothing: the brief is
    accepted, and it is its own parse. *)
Theorem payloadSchema_parse_idempotent (body brief : json) :
  payloadSchema_parse body = inr brief → payloadSchema_parse brief = inr brief.
Proof.
  intros H. destruct (accepted_object body) as [m ->]; [by exists brief|].
  destruct (parsed_brief _ _ H) as (out & -> & Hout).
  assert (∀ k, k ∈ brief_fields → out !! k = m !! k) as Hin.
  { intros k Hk. by rewrite Hout, decide_True. }
  assert (accepted (JObject out)) as [brief' H'].
  { assert (accepted (JObject m)) as Hm by (by eexists).
    rewrite accepted_iff in Hm |- *.
    unfold fields_valid, text_fields_valid, brief_fields in *.
    rewrite !Hin by (rewrite !elem_of_cons; tauto). done. }
  rewrite H'. destruct (parsed_brief _ _ H') as (out' & -> & Hout').
  do 2 f_equal. apply map_eq. intros k. rewrite Hout', Hout.
  by case_decide.
Qed.

Lemma payloadSchema_parse_idempotent_witness :
  ∃ brief, payloadSchema_parse sample_body = inr brief
           ∧ payloadSchema_parse brief = inr brief.
Proof.
  eexists. split; [vm_compute; reflexivity|].
  apply (payloadSchema_parse_idempotent sample_body). vm_compute. reflexivity.
Defined.

(** X3. [null] is not a missing property: a body that holds [null] under any
    of the seven properties, the optional ones too, is rejected. *)
Theorem null_property_rejected (m : gmap string json) (k : string) :
  k ∈ brief_fields → m !! k = Some JNull → rejected (JObject m).
Proof.
  intros Hk Hnull. rewrite rejected_iff, accepted_iff.
  unfold fields_valid, text_fields_valid, absent_or, text_at_least, keyword_array,
    duration_in_bounds, brief_fields in *.
  rewrite !elem_of_cons, elem_of_nil in Hk.
  intros Hv.
  destruct Hk as [->|[->|[->|[->|[->|[->|[->|[]]]]]]]]; rewrite Hnull in Hv;
    destruct Hv as ((H1 & H2 & H3 & H4 & H5 & H6) & H7);
    repeat match goal with
           | H : _ ∨ _ |- _ => destruct H
           | H : ∃ _, _ |- _ => destruct H
           | H : _ ∧ _ |- _ => destruct H
           end; discriminate.
Qed.

Lemma null_property_rejected_witness :
  rejected (JObject (<["tone" := JNull]> three_letter_topic)).
Proof.
  apply (null_property_rejected _ "tone").
  - unfold brief_fields. rewrite !elem_of_cons. tauto.
  - reflexivity.
Defined.

(** X4. With the other properties valid, [keywords] is accepted exactly when
    it is an array of non-empty strings; the empty array is. *)
Theorem keywords_constraint (m : gmap string json) (v : json) :
  accepted (JObject (delete "keywords" m))
  → accepted (JObject (<["keywords" := v]> m))
    ↔ ∃ l, v = JArray l ∧ Forall (λ x, ∃ s, x = JString s ∧ 1 ≤ String.length s) l.
Proof.
  rewrite !accepted_iff. unfold fields_valid, text_fields_valid.
  rewrite lookup_delete_eq, lookup_insert_eq, !lookup_delete_ne, !lookup_insert_ne by done.
  intros ((? & ? & ? & ? & _ & ?) & ?).
  assert (absent_or keyword_array (Some v)
          ↔ ∃ l, v = JArray l
                 ∧ Forall (λ x, ∃ s, x = JString s ∧ 1 ≤ String.length s) l) as <-.
  { unfold absent_or, keyword_array, text_at_least. split.
    - intros [[=]|(l & [= ->] & Hl)]. exists l. split; [done|].
      eapply Forall_impl; [exact Hl|]. intros x (s & [= ->] & ?). eauto.
    - intros (l & -> & Hl). right. exists l. split; [done|].
      eapply Forall_impl; [exact Hl|]. intros x (s & -> & ?). eauto. }
  tauto.
Qed.

Lemma keywords_constraint_witness :
  accepted (JObject (<["keywords" := JArray []]> three_letter_topic))
  ∧ ¬ accepted (JObject (<["keywords" := JArray [JString ""]]> three_letter_topic)).
Proof.
  assert (accepted (JObject (delete "keywords" three_letter_topic))) as H.
  { eexists. vm_compute. reflexivity. }
  split.
  - apply (keywords_constraint three_letter_topic _ H). exists []. by split.
  - intros (l & [= <-] & Hl)%(keywords_constraint three_letter_topic _ H).
    apply Forall_cons in Hl as [(s & [= <-] & Hs) _]. simpl in Hs. lia.
Defined.

End MoreValidation.

(** * What a [ZodError] reports *)

Section Issues.

Import Zod.

Lemma well_reported_string minLength p v : well_reported p (parse (string_ minLength) p v).
Proof.
  assert (∀ c, well_reported p (inl [mkIssue c p])) as Hone.
  { intros c. split; [done|]. constructor; [|constructor]. exists []. simpl.
    by rewrite app_nil_r. }
  destruct v as [[| | |s| |]|]; simpl; try apply Hone.
  destruct minLength as [n|]; [|done].
  destruct (n <=? String.length s); [done | apply Hone].
Qed.

Lemma check_number_paths p q checks :
  Forall (λ i, ∃ rest, path i = p ++ rest) (concat (List.map (check_number p q) checks)).
Proof.
  induction checks as [|c checks IH]; simpl; [constructor|].
  apply Forall_app. split; [|done].
  assert (∃ rest : list PathSeg, p = p ++ rest) as Hp by (exists []; by rewrite app_nil_r).
  destruct c; simpl;
    [destruct (isInteger q) | destruct (Qle_bool bound q) | destruct (Qle_bool q bound)];
    repeat constructor; done.
Qed.

Lemma well_reported_number checks p v : well_reported p (parse (number checks) p v).
Proof.
  destruct v as [[| |q| | |]|]; simpl;
    try (split; [done|]; constructor; [|constructor]; exists []; simpl;
         by rewrite app_nil_r).
  pose proof (check_number_paths p q checks) as H.
  destruct (concat _); [done|]. by split.
Qed.

Lemma parse_elements_reported minLength p i l es :
  parse_elements (parse (string_ minLength)) p i l = inl es
  → es ≠ [] ∧ Forall (λ x, ∃ rest, path x = p ++ rest) es.
Proof.
  revert i es. induction l as [|v l IH]; intros i es; [discriminate|].
  cbn [parse_elements].
  pose proof (well_reported_string minLength (p ++ [Index i]) (Some v)) as Hv.
  destruct (parse (string_ minLength) (p ++ [Index i]) (Some v)) as [e|o];
    destruct (parse_elements _ p (S i) l) as [es'|ws] eqn:Hl.
  - intros [= <-]. destruct Hv as [Hne Hv], (IH _ _ Hl) as [_ IH'].
    split; [by destruct e|]. apply Forall_app. split; [|done].
    eapply Forall_impl; [exact Hv|]. intros x [rest ->].
    exists (Index i :: rest). by rewrite <- app_assoc.
  - intros [= <-]. destruct Hv as [Hne Hv]. split; [done|].
    eapply Forall_impl; [exact Hv|]. intros x [rest ->].
    exists (Index i :: rest). by rewrite <- app_assoc.
  - intros H. assert (es = es') as -> by (destruct o; congruence). by apply (IH (S i)).
  - destruct o; discriminate.
Qed.

Lemma well_reported_array minLength p v :
  well_reported p (parse (array (string_ minLength)) p v).
Proof.
  destruct v as [[| | | |l|]|];
    try (split; [done|]; constructor; [|constructor]; exists []; simpl;
         by rewrite app_nil_r).
  rewrite parse_array.
  destruct (parse_elements _ p 0 l) as [es|ws] eqn:H; [|done].
  by apply parse_elements_reported in H.
Qed.

Lemma well_reported_optional t p v :
  (∀ v', well_reported p (parse t p v')) → well_reported p (parse (optional t) p v).
Proof. intros H. destruct v; simpl; [apply H | done]. Qed.

(** The issues of an object are those of its properties, in the order of
    the shape. *)
Lemma parse_fields_issues p (m : gmap string json) shape :
  match parse_fields parse p m shape with inl es => es | inr _ => [] end
  = concat (List.map (λ kt, issues_of (parse kt.2 (p ++ [Key kt.1]) (m !! kt.1))) shape).
Proof.
  induction shape as [|[k t] shape IH]; simpl; [done|]. rewrite <- IH.
  destruct (parse t (p ++ [Key k]) (m !! k)) as [e|o];
    destruct (parse_fields parse p m shape) as [es|out]; simpl.
  - done.
  - by rewrite app_nil_r.
  - by destruct o.
  - by destruct o.
Qed.

Lemma payloadSchema_well_reported (m : gmap string json) :
  Forall (λ kt, well_reported [Key kt.1] (parse kt.2 [Key kt.1] (m !! kt.1)))
    (shape payloadSchema).
Proof.
  repeat constructor; simpl fst; simpl snd;
    auto using well_reported_string, well_reported_optional, well_reported_array,
      well_reported_number.
Qed.

(** X5. The [ZodError] for an object names every property that violates its
    schema, and names no other: each issue lies under one of the seven
    properties, and that property's value is not accepted. *)
Theorem ZodError_names_invalid_properties (m : gmap string json) (e : ZodError) :
  payloadSchema_parse (JObject m) = inl e
  → (∀ k t, (k, t) ∈ shape payloadSchema → ¬ passes t [Key k] (m !! k)
       → ∃ i, i ∈ e ∧ issue_field i = Some k)
    ∧ (∀ i, i ∈ e
       → ∃ k t, (k, t) ∈ shape payloadSchema ∧ issue_field i = Some k
                ∧ ¬ passes t [Key k] (m !! k)).
Proof.
  intros H.
  assert (e = concat (List.map (λ kt, issues_of (parse kt.2 [Key kt.1] (m !! kt.1)))
                        (shape payloadSchema))) as He.
  { etransitivity; [|exact (parse_fields_issues [] m (shape payloadSchema))].
    unfold payloadSchema_parse in H.
    change (parse payloadSchema [] (Some (JObject m)))
      with (match parse_fields parse [] m (shape payloadSchema) with
            | inr out => inr (Some (JObject out))
            | inl es => inl es
            end : ParseReturn) in H.
    destruct (parse_fields parse [] m (shape payloadSchema)); congruence. }
  pose proof (payloadSchema_well_reported m) as Hwr.
  rewrite Forall_forall in Hwr.
  assert (∀ i, i ∈ e ↔ ∃ kt, kt ∈ shape payloadSchema
                           ∧ i ∈ issues_of (parse kt.2 [Key kt.1] (m !! kt.1))) as Hin.
  { intros i. rewrite He, list_elem_of_In, in_concat. split.
    - intros (l & (kt & <- & Hkt)%in_map_iff & Hi).
      exists kt. by rewrite !list_elem_of_In.
    - intros (kt & Hkt%list_elem_of_In & Hi%list_elem_of_In).
      exists (issues_of (parse kt.2 [Key kt.1] (m !! kt.1))). split; [|done].
      by apply (in_map (λ kt, issues_of (parse kt.2 [Key kt.1] (m !! kt.1)))). }
  split.
  - intros k t Hkt Hbad. specialize (Hwr _ Hkt). simpl in Hwr.
    destruct (parse t [Key k] (m !! k)) as [[|i es]|o] eqn:Hp.
    + by destruct Hwr.
    + exists i. split.
      * apply Hin. exists (k, t). simpl. rewrite Hp. split; [done | by left].
      * destruct Hwr as [_ [[rest Hi] _]%Forall_cons]. unfold issue_field. by rewrite Hi.
    + destruct Hbad. by exists o.
  - intros i ([k t] & Hkt & Hi)%Hin. simpl in Hi. specialize (Hwr _ Hkt). simpl in Hwr.
    exists k, t. destruct (parse t [Key k] (m !! k)) as [es|o] eqn:Hp; simpl in Hi.
    + destruct Hwr as [_ Hwr]. rewrite Forall_forall in Hwr.
      destruct (Hwr _ Hi) as [rest Hrest].
      split_and!; [done | unfold issue_field; by rewrite Hrest|].
      intros [o Ho]. congruence.
    + by apply elem_of_nil in Hi.
Qed.

Lemma ZodError_names_invalid_properties_witness :
  ∃ e i, payloadSchema_parse (JObject two_letter_topic) = inl e
         ∧ i ∈ e ∧ issue_field i = Some "topic".
Proof.
  eexists.
  destruct (ZodError_names_invalid_properties two_letter_topic _
              ltac:(vm_compute; reflexivity)) as [Hall _].
  destruct (Hall "topic" (string_ (Some 3))) as (i & Hi & Hf).
  - simpl. apply list_elem_of_here.
  - intros [o Ho]. vm_compute in Ho. discriminate.
  - exists i. split; [vm_compute; reflexivity|]. by split.
Defined.

End Issues.

(** * More on the route handler *)

Section MoreRoute.

Variable runAutomationPipeline : json → pipeline_run.

Local Abbreviation post := (POST runAutomationPipeline).

(** X6. A response of [POST] has status 200 or 500 and no other, the first
    with [ok: true] and the second with [ok: false]; and there is a
    response only for a body that validates. *)
Theorem POST_status_200_or_500 (μ : memory) (body : json) (r : Response) :
  (post μ body).2 = Returned r
  → accepted body
    ∧ ∃ fields, payload r = JObject fields
        ∧ ((status r = 200%Z ∧ fields !! "ok" = Some (JBool true))
           ∨ (status r = 500%Z ∧ fields !! "ok" = Some (JBool false))).
Proof.
  destruct (payloadSchema_parse body) as [e|parsed] eqn:Hp.
  - by rewrite (POST_rejected _ _ _ _ Hp).
  - rewrite (POST_accepted _ _ _ _ Hp). intros [= <-]. split; [by exists parsed|].
    destruct (settlement (runAutomationPipeline parsed)); simpl; eauto.
Qed.

(** X7. What a call of [POST] returns or throws does not depend on what is in
    the server's memory: not on the requests served before. *)
Theorem POST_outcome_memory_independent (μ μ' : memory) (body : json) :
  (post μ body).2 = (post μ' body).2.
Proof.
  destruct (payloadSchema_parse body) as [e|parsed] eqn:Hp.
  - by rewrite !(POST_rejected _ _ _ _ Hp).
  - by rewrite !(POST_accepted _ _ _ _ Hp).
Qed.

Lemma await_pipeline_arrays μ a run :
  a < length (arrays μ)
  → length (arrays (await_pipeline μ a run).1) = length (arrays μ)
    ∧ read a (await_pipeline μ a run).1 = read a μ ++ emitted run
    ∧ ∀ b, b ≠ a → read b (await_pipeline μ a run).1 = read b μ.
Proof.
  revert μ. induction run as [status k IH|result|error]; intros μ Ha; simpl.
  - destruct (IH (push a status μ)) as (Hlen & Hread & Hother);
      [by rewrite length_push|].
    rewrite Hlen, Hread, length_push, read_push by done. split_and!; [done| |].
    + by rewrite <- app_assoc.
    + intros b Hb. rewrite Hother by done. by apply read_push_ne.
  - by rewrite app_nil_r.
  - by rewrite app_nil_r.
Qed.

(** X8. For a body that validates, a call of [POST] calls the pipeline once,
    with the parsed brief; it allocates one array, which ends up holding
    the status messages of the run, and writes to no array that was there
    before. *)
Theorem POST_memory_effect (μ : memory) (body parsed : json) :
  payloadSchema_parse body = inr parsed
  → pipelineCalls (post μ body).1 = pipelineCalls μ ++ [parsed]
    ∧ length (arrays (post μ body).1) = S (length (arrays μ))
    ∧ read (length (arrays μ)) (post μ body).1 = emitted (runAutomationPipeline parsed)
    ∧ ∀ a, a < length (arrays μ) → read a (post μ body).1 = read a μ.
Proof.
  intros Hp. split; [by rewrite POST_calls, Hp|].
  unfold POST. rewrite Hp. unfold new_array.
  destruct (await_pipeline_arrays
              (call_logged parsed (mkMemory (arrays μ ++ [[]]) (pipelineCalls μ)))
              (length (arrays μ)) (runAutomationPipeline parsed))
    as (Hlen & Hread & Hother).
  { simpl. rewrite length_app. simpl. lia. }
  rewrite Hlen, Hread. simpl. rewrite length_app. simpl. split_and!.
  - lia.
  - unfold read. simpl. by rewrite lookup_app_r, Nat.sub_diag by lia.
  - intros a Ha. rewrite Hother by lia. unfold read. simpl. by rewrite lookup_app_l.
Qed.

End MoreRoute.

Lemma POST_status_200_or_500_witness :
  ∃ r, (POST (failing_pipeline render_timeout) boot sample_body).2 = Returned r
       ∧ accepted sample_body ∧ status r = 500%Z.
Proof.
  eexists. split; [vm_compute; reflexivity|].
  destruct (POST_status_200_or_500 (failing_pipeline render_timeout) boot sample_body _
              ltac:(vm_compute; reflexivity)) as [Hacc _].
  split; [exact Hacc | reflexivity].
Defined.

Lemma POST_memory_effect_witness :
  ∃ parsed, payloadSchema_parse sample_body = inr parsed
    ∧ pipelineCalls (POST quiet_pipeline boot sample_body).1 = [parsed]
    ∧ read 0 (POST quiet_pipeline boot sample_body).1 = [sample_status].
Proof.
  eexists. split; [vm_compute; reflexivity|].
  destruct (POST_memory_effect quiet_pipeline boot sample_body _
              ltac:(vm_compute; reflexivity)) as (Hcalls & _ & Hread & _).
  split; [exact Hcalls | exact Hread].
Defined.

(** * Every request settles *)

Section Progress.

Variable runAutomationPipeline : json → pipeline_run.

Lemma turns_left_step μ h :
  turns_left runAutomationPipeline (step runAutomationPipeline μ h).2
  = pred (turns_left runAutomationPipeline h).
Proof.
  destruct h as [body|a [status k|result|error]|o]; simpl; try done.
  by destruct (payloadSchema_parse body).
Qed.

Lemma turns_left_0 h :
  turns_left runAutomationPipeline h = 0 → ∃ o, h = Settled o.
Proof.
  destruct h as [body|a k|o]; simpl; [|done|by eauto].
  by destruct (payloadSchema_parse body).
Qed.

Lemma schedule_step_lookup σ i j h :
  σ.2 !! j = Some h
  → (schedule_step runAutomationPipeline σ i).2 !! j
    = Some (if decide (i = j) then (step runAutomationPipeline σ.1 h).2 else h).
Proof.
  intros Hj. unfold schedule_step. case_decide as Hij.
  - subst j. rewrite Hj. destruct (step runAutomationPipeline σ.1 h) as [μ1 h1]. simpl.
    apply list_lookup_insert_eq. by eapply lookup_lt_Some.
  - destruct (σ.2 !! i) as [hi|]; [|done].
    destruct (step runAutomationPipeline σ.1 hi) as [μ1 h1]. simpl.
    by rewrite list_lookup_insert_ne.
Qed.

Lemma run_schedule_turns schedule σ i h :
  σ.2 !! i = Some h
  → ∃ h', (run_schedule runAutomationPipeline schedule σ).2 !! i = Some h'
          ∧ turns_left runAutomationPipeline h'
            = turns_left runAutomationPipeline h - count_occ Nat.eq_dec schedule i.
Proof.
  revert σ h. induction schedule as [|j schedule IH]; intros σ h Hi; simpl.
  - exists h. split; [done | lia].
  - pose proof (schedule_step_lookup σ j i h Hi) as Hstep.
    destruct (IH _ _ Hstep) as (h' & Hh' & Hturns). exists h'. split; [done|].
    rewrite Hturns. destruct (Nat.eq_dec j i) as [->|Hne].
    + rewrite decide_True by done. rewrite turns_left_step. simpl. lia.
    + by rewrite decide_False.
Qed.

(** X9. However the turns of the requests in flight are ordered, a request
    that has had its turns (one to parse the body, and for a body that
    validates one for each status message of its run and one for the
    settlement) is settled, with what [POST] gives it alone. *)
Theorem request_settles (bodies : list json) (μ0 : memory) (schedule : list nat)
    (i : nat) (body : json) :
  bodies !! i = Some body
  → turns_left runAutomationPipeline (Entered body) ≤ count_occ Nat.eq_dec schedule i
  → (run_schedule runAutomationPipeline schedule (μ0, Entered <$> bodies)).2 !! i
    = Some (Settled (POST runAutomationPipeline boot body).2).
Proof.
  intros Hb Hturns.
  destruct (run_schedule_turns schedule (μ0, Entered <$> bodies) i (Entered body))
    as (h' & Hh' & Hleft).
  { simpl. by rewrite list_lookup_fmap, Hb. }
  destruct (turns_left_0 h') as [o ->]; [lia|].
  destruct (coherent_run runAutomationPipeline bodies schedule _
              (coherent_start runAutomationPipeline bodies μ0)) as [Hok _].
  destruct (Hok i _ Hh') as (body' & Hb' & ->).
  rewrite Hh'. congruence.
Qed.

End Progress.

Lemma request_settles_witness :
  (run_schedule echo_pipeline [1; 0; 1; 1; 0; 1]
     (boot, Entered <$> [JObject two_letter_topic; sample_body])).2 !! 1
  = Some (Settled (POST echo_pipeline boot sample_body).2).
Proof.
  apply (request_settles echo_pipeline [JObject two_letter_topic; sample_body] boot
           [1; 0; 1; 1; 0; 1] 1 sample_body).
  - reflexivity.
  - vm_compute. lia.
Defined.

(** * More on the page *)

Section Keywords.

Import Page.

Lemma split_no_separator sep s piece :
  In piece (split sep s) → has_char sep piece = false.
Proof.
  revert piece. induction s as [|c s IH]; intros piece; simpl.
  - by intros [<-|[]].
  - destruct (Ascii.eqb c sep) eqn:Hc.
    + intros [<-|H]; [done | by apply IH].
    + destruct (split sep s) as [|first pieces].
      * intros [<-|[]]. simpl. by rewrite Hc.
      * intros [<-|H]; [|apply IH; by right].
        simpl. rewrite Hc. apply IH. by left.
Qed.

Lemma has_char_trimStart c s : has_char c (trimStart s) = true → has_char c s = true.
Proof.
  induction s as [|c' s IH]; simpl; [done|].
  destruct (isWhiteSpace c'); [|done].
  intros H. rewrite (IH H). apply orb_true_r.
Qed.

Lemma has_char_trimEnd c s : has_char c (trimEnd s) = true → has_char c s = true.
Proof.
  induction s as [|c' s IH]; simpl; [done|].
  destruct (trimEnd s) as [|c'' rest].
  - destruct (isWhiteSpace c'); simpl; [done|]. rewrite orb_false_r. intros ->. done.
  - intros H. simpl in H. apply orb_true_iff in H as [->|H]; [done|].
    rewrite IH; [apply orb_true_r|]. by simpl.
Qed.

Lemma trimStart_starts s : startsWithWhiteSpace (trimStart s) = false.
Proof.
  induction s as [|c s IH]; simpl; [done|].
  destruct (isWhiteSpace c) eqn:Hc; [done|]. by simpl.
Qed.

Lemma trimEnd_starts s :
  startsWithWhiteSpace s = false → startsWithWhiteSpace (trimEnd s) = false.
Proof.
  destruct s as [|c s]; simpl; [done|]. intros Hc.
  destruct (trimEnd s); [by rewrite Hc | done].
Qed.

Lemma trimEnd_ends s : endsWithWhiteSpace (trimEnd s) = false.
Proof.
  induction s as [|c s IH]; simpl; [done|].
  destruct (trimEnd s) as [|c' rest].
  - destruct (isWhiteSpace c) eqn:Hc; simpl; done.
  - done.
Qed.

(** X10. Whatever is typed into the keywords field, each keyword that the page
    sends is non-empty, holds no comma, and neither starts nor ends with
    white space. *)
Theorem keywordList_clean (form : FormState) (k : string) :
  In k (keywordList form)
  → k ≠ ""
    ∧ has_char "," k = false
    ∧ startsWithWhiteSpace k = false
    ∧ endsWithWhiteSpace k = false.
Proof.
  unfold keywordList. intros [(piece & <- & Hpiece)%in_map_iff Hk]%filter_In.
  split_and!.
  - intros Hempty. rewrite Hempty in Hk. discriminate.
  - apply split_no_separator in Hpiece.
    destruct (has_char "," (trim piece)) eqn:H; [|done].
    apply has_char_trimEnd, has_char_trimStart in H. congruence.
  - apply trimEnd_starts, trimStart_starts.
  - apply trimEnd_ends.
Qed.

Lemma keywordList_clean_witness :
  keywordList initialForm = ["automation"; "AI tools"; "YouTube growth"]
  ∧ startsWithWhiteSpace "AI tools" = false.
Proof.
  split; [reflexivity|].
  apply (keywordList_clean initialForm "AI tools"). simpl. tauto.
Defined.

(** X11. For a form that passes its constraints and whose three required
    texts have three code units or more, validation hands the pipeline
    the very body that the page sent: nothing is stripped or changed. *)
Theorem requestBody_parse_id (form : FormState) :
  checkValidity form = true
  → 3 ≤ String.length (topic form)
  → 3 ≤ String.length (targetAudience form)
  → 3 ≤ String.length (contentGoals form)
  → payloadSchema_parse (requestBody form) = inr (requestBody form).
Proof.
  intros Hvalid Ht Ha Hg.
  assert (accepted (requestBody form)) as [brief H].
  { apply requestBody_accepted. split_and!; try done.
    apply number_valid_duration. by apply checkValidity_iff in Hvalid as (_ & _ & _ & ?). }
  rewrite H. f_equal. unfold requestBody in *.
  destruct (parsed_brief _ _ H) as (out & -> & Hout). f_equal.
  apply map_eq. intros k. rewrite Hout. case_decide as Hk; [done|].
  unfold brief_fields in Hk. rewrite !not_elem_of_cons in Hk.
  destruct Hk as (? & ? & ? & ? & ? & ? & ? & _).
  by rewrite !lookup_insert_ne, lookup_empty.
Qed.

Lemma requestBody_parse_id_witness :
  payloadSchema_parse sample_body = inr sample_body.
Proof.
  apply (requestBody_parse_id initialForm); [reflexivity | simpl; lia ..].
Defined.

End Keywords.

(** * Submitting and showing *)

Section HomeFacts.

Import Home.

Variable numberToString : Q → string.
Variable nullReadMessage : string → string.

Local Abbreviation handleSubmit := (handleSubmit numberToString nullReadMessage).
Local Abbreviation try_block := (try_block numberToString nullReadMessage).
Local Abbreviation getProperty := (getProperty nullReadMessage).
Local Abbreviation timelineKeys := (timelineKeys numberToString nullReadMessage).
Local Abbreviation entryKey := (entryKey numberToString nullReadMessage).

Lemma try_block_frame s o :
  form (try_block s o).1 = form s
  ∧ loading (try_block s o).1 = loading s
  ∧ error (try_block s o).1 = error s
  ∧ ((try_block s o).2 = None
     ↔ ∃ data, o = FetchResponse true (BodyJson data) ∧ data ≠ JNull)
  ∧ ((try_block s o).2 ≠ None → result (try_block s o).1 = result s).
Proof.
  destruct o as [e|ok [data|e]]; simpl.
  - split_and!; try done. split; [done | by intros (? & [=] & _)].
  - destruct data; destruct ok; simpl; split_and!; try done;
      try (split; [done | by intros (? & [=] & _)]);
      try (split; [by eexists | done]).
    split; [done | by intros (? & [= <-] & ?)].
  - split_and!; try done. split; [done | by intros (? & [=] & _)].
Qed.

(** X12. However the request ends, [handleSubmit] leaves [loading] false and
    the form as it was; it never leaves both an error and a result; and
    it leaves no error exactly when the response was ok and its body was
    JSON other than [null]. *)
Theorem handleSubmit_error_or_result (s : State) (o : fetched) :
  loading (handleSubmit s o) = false
  ∧ form (handleSubmit s o) = form s
  ∧ (error (handleSubmit s o) = None ∨ result (handleSubmit s o) = Some JNull)
  ∧ (error (handleSubmit s o) = None
     ↔ ∃ data, o = FetchResponse true (BodyJson data) ∧ data ≠ JNull).
Proof.
  unfold Home.handleSubmit.
  destruct (try_block_frame (submitting s) o) as (Hform & _ & Herr & Hnone & Hres).
  destruct (try_block (submitting s) o) as [s1 caught]. simpl in *.
  rewrite <- Hnone.
  destruct caught as [[message props|v]|]; simpl; split_and!; try done;
    try (right; by apply Hres); try (by left).
Qed.

(** X13. The page and the route together.  For a form whose body validates,
    [POST] answers, and after [handleSubmit] the page shows the status
    messages of the run; with the result and no error when the pipeline
    resolved, with no result and the message of the failure when it
    rejected. *)
Theorem submit_round_trip (runAutomationPipeline : json → pipeline_run)
    (μ : memory) (s : State) (parsed : json) :
  payloadSchema_parse (Page.requestBody (form s)) = inr parsed
  → ∃ r, (POST runAutomationPipeline μ (Page.requestBody (form s))).2 = Returned r
         ∧ status (handleSubmit s (reply r))
           = JArray (emitted (runAutomationPipeline parsed))
         ∧ loading (handleSubmit s (reply r)) = false
         ∧ match settlement (runAutomationPipeline parsed) with
           | inl res =>
               result (handleSubmit s (reply r)) = Some res
               ∧ error (handleSubmit s (reply r)) = None
           | inr failure =>
               result (handleSubmit s (reply r)) = Some JNull
               ∧ error (handleSubmit s (reply r)) = Some (message_of failure)
           end.
Proof.
  intros Hp. eexists. split; [by apply POST_accepted|].
  destruct (settlement (runAutomationPipeline parsed)) as [res|failure]; simpl.
  - done.
  - done.
Qed.

End HomeFacts.

Lemma submit_round_trip_witness :
  ∃ r, (POST quiet_pipeline boot sample_body).2 = Returned r
       ∧ Home.status (Home.handleSubmit (λ _, "0") (λ _, "null read") Home.initialState
                        (Home.reply r))
         = JArray [sample_status].
Proof.
  destruct (submit_round_trip (λ _, "0") (λ _, "null read") quiet_pipeline boot
              Home.initialState sample_body ltac:(vm_compute; reflexivity))
    as (r & Hr & Hstatus & _).
  exists r. split; [exact Hr | exact Hstatus].
Defined.

(** * The keys of the timeline *)

Section TimelineKeys.

Import Home.

Variable numberToString : Q → string.
Variable nullReadMessage : string → string.

Lemma append_nil_left s : ("" ++ s)%string = s.
Proof. reflexivity. Qed.

Lemma append_cons_left c s d : (String c s ++ d)%string = String c (s ++ d)%string.
Proof. reflexivity. Qed.

Lemma has_char_middle c s d : has_char c (s ++ String c d)%string = true.
Proof.
  induction s as [|c' s IH].
  - rewrite append_nil_left. simpl. by rewrite Ascii.eqb_refl.
  - rewrite append_cons_left. simpl. rewrite IH. apply orb_true_r.
Qed.

Lemma dash_split s1 s2 d1 d2 :
  has_char "-" d1 = false → has_char "-" d2 = false
  → (s1 ++ "-" ++ d1)%string = (s2 ++ "-" ++ d2)%string → d1 = d2.
Proof.
  intros H1 H2.
  change ("-" ++ d1)%string with (String "-" d1).
  change ("-" ++ d2)%string with (String "-" d2).
  revert s2. induction s1 as [|c s1 IH]; intros [|c' s2];
    rewrite ?append_nil_left, ?append_cons_left.
  - by intros [= ->].
  - intros [= <- ->]. by rewrite has_char_middle in H1.
  - intros [= -> <-]. by rewrite has_char_middle in H2.
  - intros [= _ H]. by apply (IH s2).
Qed.

Lemma string_of_uint_no_dash d : has_char "-" (NilEmpty.string_of_uint d) = false.
Proof. induction d; simpl; done. Qed.

Lemma decimal_inj i j : decimal i = decimal j → i = j.
Proof.
  unfold decimal. intros H. apply (f_equal NilEmpty.uint_of_string) in H.
  rewrite !NilEmpty.usu in H. injection H as H.
  by apply DecimalNat.Unsigned.to_uint_inj.
Qed.

Lemma entryKey_shape index entry k :
  entryKey numberToString nullReadMessage index entry = Some k
  → ∃ t, k = (t ++ "-" ++ decimal index)%string.
Proof.
  unfold entryKey.
  destruct (getProperty nullReadMessage entry "stage") as [e|[v|]]; [done| |];
    intros [= <-]; eauto.
Qed.

Lemma timelineKeys_from index entries keys :
  timelineKeys numberToString nullReadMessage index entries = Some keys
  → length keys = length entries
    ∧ Forall (λ k, ∃ t i, index ≤ i ∧ k = (t ++ "-" ++ decimal i)%string) keys
    ∧ NoDup keys.
Proof.
  revert index keys. induction entries as [|entry rest IH]; intros index keys; simpl.
  - intros [= <-]. split_and!; [done | constructor | constructor].
  - destruct (entryKey numberToString nullReadMessage index entry) as [k|] eqn:Hk;
      [|done].
    destruct (timelineKeys numberToString nullReadMessage (S index) rest) as [ks|] eqn:Hks;
      [|done].
    intros [= <-]. destruct (IH _ _ Hks) as (Hlen & Hall & Hnd).
    apply entryKey_shape in Hk as [t ->]. split_and!.
    + simpl. by rewrite Hlen.
    + constructor; [by exists t, index|].
      eapply Forall_impl; [exact Hall|]. intros k (t' & i & Hi & ->).
      exists t', i. split; [lia | done].
    + constructor; [|done]. intros Hin.
      rewrite Forall_forall in Hall. destruct (Hall _ Hin) as (t' & i & Hi & Heq).
      apply dash_split in Heq; try apply string_of_uint_no_dash.
      apply decimal_inj in Heq. lia.
Qed.

(** X14. When the timeline renders, there is one key for each status message
    and no two items share a key, whatever the stages are. *)
Theorem timelineKeys_distinct (entries : list json) (keys : list string) :
  timelineKeys numberToString nullReadMessage 0 entries = Some keys
  → length keys = length entries ∧ NoDup keys.
Proof. intros (? & _ & ?)%timelineKeys_from. by split. Qed.

End TimelineKeys.

Lemma timelineKeys_distinct_witness :
  ∃ keys, Home.timelineKeys (λ _, "0") (λ _, "null read") 0
            [sample_status; sample_status; JObject ∅] = Some keys
          ∧ NoDup keys.
Proof.
  eexists. split; [vm_compute; reflexivity|].
  refine (proj2 (timelineKeys_distinct (λ _, "0") (λ _, "null read")
                   [sample_status; sample_status; JObject ∅] _ _)).
  vm_compute. reflexivity.
Defined.
